(** * playwright-go: the event emitter and the pointer helpers

    A shallow embedding of [event_emitter.go] (type [EventEmitter] with
    [Emit], [On], [Once], [RemoveListener], [ListenerCount], [addEvent],
    the hook registrations) and of the pointer helpers [String], [Bool],
    [Int], [Float].

    The emitter mutates one object in place and calls foreign code
    (handlers through [reflect.Value.Call], hooks directly), any of which
    may panic.  The embedding threads a [world] (the emitter plus the log
    of foreign calls made so far) through a small state-and-panic monad,
    so that every Go statement of the source is one monadic step.

    Scope of the model:
    - [sync.Mutex] is left out: the embedding is sequential, and a handler
      that re-entered the emitter from inside [Emit] would block on the
      mutex, so foreign code is taken not to call back into the emitter;
    - emitters are those set up by [initEventEmitter] ([events] is a map,
      never the nil map);
    - a handler is a Go [func] value (the [interface{}] parameter of
      [On]/[Once]/[RemoveListener] holds a function), not variadic, whose
      body either returns or panics as a function of its arguments;
    - payload values and parameter types range over a fragment of Go's
      ([int], [string], [bool], [interface{}] and the nil interface);
    - hooks return normally (they are plain [func(name, handler)] values
      that observe the emitter, e.g. through [ListenerCount]). *)

From stdpp Require Import base gmap list strings.
From Stdlib Require Import ZArith Floats.SpecFloat.

Local Open Scope Z_scope.
Local Open Scope string_scope.
Local Open Scope list_scope.

(** ** Go values seen through [reflect] *)

(** The payload of an event is a list of [interface{}] values.  [VNil] is
    the nil interface: [reflect.ValueOf(nil)] is the zero [reflect.Value],
    whose [Kind] is [Invalid]. *)
Inductive value :=
| VNil
| VInt (z : Z)
| VString (s : string)
| VBool (b : bool).

(** Parameter types of handlers. *)
Inductive type :=
| TInt
| TString
| TBool
| TInterface.

Definition IsValid (v : value) : bool :=
  match v with VNil => false | _ => true end.

(** [xt.AssignableTo(targ)] for the dynamic type [xt] of a valid value. *)
Definition AssignableTo (v : value) (targ : type) : bool :=
  match v, targ with
  | VNil, _ => false
  | _, TInterface => true
  | VInt _, TInt => true
  | VString _, TString => true
  | VBool _, TBool => true
  | _, _ => false
  end.

Fixpoint assignableAll (args : list value) (targs : list type) : bool :=
  match args, targs with
  | x :: args', t :: targs' => AssignableTo x t && assignableAll args' targs'
  | _, _ => true
  end.

(** A handler: a Go function value.  [Pointer] is what
    [reflect.ValueOf(handler).Pointer()] returns (the code pointer),
    [params] its parameter types, and [raises args] tells whether its body
    panics when run on [args].  Two closures made from one function
    literal share their [Pointer] and may differ in [raises]. *)
Record handler := Func {
  Pointer : N;
  params : list type;
  raises : list value → bool
}.

(** [handlerV.Type().NumIn()] *)
Definition NumIn (handlerV : handler) : nat := length (params handlerV).

(** A hook, [func(name string, handler interface{})], known by an
    identifier. *)
Record hook := Hook { hookId : nat }.

(** ** The emitter *)

Record eventRegister := mkRegister {
  once : list handler;
  on : list handler
}.

Record EventEmitter := mkEmitter {
  events : gmap string eventRegister;
  addEventHandlers : list hook;
  removeEventHandlers : list hook
}.

(** ** Foreign calls and panics *)

(** The place in the source a foreign call is made from. *)
Inductive site :=
| Durable      (* Emit, loop over .on *)
| OneShot      (* Emit, loop over .once *)
| AddHook      (* addEvent *)
| RemoveHook.  (* RemoveListener *)

(** One entry of the log: a handler body entered with its arguments, or a
    hook entered with [(name, handler)] while the emitter's map was
    [seen]. *)
Inductive call :=
| CallHandler (s : site) (h : handler) (args : list value)
| CallHook (s : site) (mitm : hook) (name : string) (h : handler)
           (seen : gmap string eventRegister).

Inductive panic :=
| OutOfRange      (* payloadV[:n] with n beyond the capacity of payloadV *)
| ZeroValue       (* reflect: Call using zero Value argument *)
| NotAssignable   (* reflect: Call using x as type t *)
| Raised          (* the handler's body panicked *)
| NilRegister.    (* e.events[name] is nil and is dereferenced *)

Record world := World {
  emitter : EventEmitter;
  log : list call
}.

Inductive exit (A : Type) :=
| Return (a : A)
| Panics (p : panic).
Arguments Return {A} a.
Arguments Panics {A} p.

(** A computation: runs from a world, ends by returning or panicking, and
    leaves the world as it was at that moment. *)
Definition M (A : Type) : Type := world → exit A * world.

Definition ret {A} (a : A) : M A := λ w, (Return a, w).

Definition bind {A B} (m : M A) (k : A → M B) : M B :=
  λ w, match m w with
       | (Return a, w') => k a w'
       | (Panics p, w') => (Panics p, w')
       end.

Definition throw {A} (p : panic) : M A := λ w, (Panics p, w).

Notation "x <- m ;; k" := (bind m (λ x, k))
  (at level 100, m at next level, right associativity).
Notation "m ;;; k" := (bind m (λ _, k))
  (at level 100, right associativity).

Definition getEvents : M (gmap string eventRegister) :=
  λ w, (Return (events (emitter w)), w).

Definition setEvents (evs : gmap string eventRegister) : M unit :=
  λ w, (Return tt,
        World (mkEmitter evs (addEventHandlers (emitter w))
                             (removeEventHandlers (emitter w)))
              (log w)).

(** [e.events[name]] followed by a field access: the map yields a pointer
    to the register, nil when the key is absent. *)
Definition register (name : string) : M eventRegister :=
  evs <- getEvents ;;
  match evs !! name with
  | Some r => ret r
  | None => throw NilRegister
  end.

(** [e.events[name].once = l] and [e.events[name].on = l] *)
Definition setOnce (name : string) (l : list handler) : M unit :=
  r <- register name ;;
  evs <- getEvents ;;
  setEvents (<[name := mkRegister l (on r)]> evs).

Definition setOn (name : string) (l : list handler) : M unit :=
  r <- register name ;;
  evs <- getEvents ;;
  setEvents (<[name := mkRegister (once r) l]> evs).

Definition enter (c : call) : M unit :=
  λ w, (Return tt, World (emitter w) (log w ++ [c])).

(** [for _, x := range xs { body }] *)
Fixpoint range {A} (xs : list A) (body : A → M unit) : M unit :=
  match xs with
  | [] => ret tt
  | x :: xs' => body x ;;; range xs' body
  end.

(** A slice of [reflect.Value]: its elements and its capacity.  The
    backing array past the elements holds zero Values, which are what
    [VNil] stands for. *)
Record slice := Slice {
  elems : list value;
  cap : nat
}.

(** [append(s, v)]: in place while the capacity allows, otherwise into a
    new array of twice the capacity (of capacity 1 from capacity 0), the
    growth of the Go runtime for slices of this element size below its
    doubling threshold: capacities 0, 1, 2, 4, 4, 8 after 0 to 5
    appends. *)
Definition append (s : slice) (v : value) : slice :=
  if decide (length (elems s) < cap s)%nat then Slice (elems s ++ [v]) (cap s)
  else Slice (elems s ++ [v]) (if decide (cap s = 0%nat) then 1%nat else (2 * cap s)%nat).

(** [s[:n]]: allowed up to the capacity, [None] is the panic "slice bounds
    out of range"; past the elements it yields the zero Values of the
    backing array. *)
Definition reslice (s : slice) (n : nat) : option (list value) :=
  if decide (n ≤ cap s)%nat
  then Some (take n (elems s ++ replicate (cap s - length (elems s)) VNil))
  else None.

(** [handlerV.Call(payloadV[:handlerV.Type().NumIn()])].

    The slice expression panics when [NumIn] exceeds the capacity of
    [payloadV].  Otherwise [Call] rejects a zero Value among its
    arguments (the ones past the payload are such), then an argument not
    assignable to its parameter, and only then runs the body. *)
Definition Call (s : site) (handlerV : handler) (payloadV : slice) : M unit :=
  match reslice payloadV (NumIn handlerV) with
  | None => throw OutOfRange
  | Some args =>
      if negb (forallb IsValid args) then throw ZeroValue
      else if negb (assignableAll args (params handlerV)) then throw NotAssignable
      else
        enter (CallHandler s handlerV args) ;;;
        if raises handlerV args then throw Raised else ret tt
  end.

(** [mitm(name, handler)] *)
Definition callHook (s : site) (mitm : hook) (name : string) (h : handler) : M unit :=
  evs <- getEvents ;;
  enter (CallHook s mitm name h evs).

(** ** The methods of [EventEmitter] *)

Definition Emit (name : string) (payload : list value) : M unit :=
  evs <- getEvents ;;
  match evs !! name with
  | None => ret tt
  | Some _ =>
      let payloadV := fold_left append payload (Slice [] 0) in
      r <- register name ;;
      range (on r) (λ handler, Call Durable handler payloadV) ;;;
      r <- register name ;;
      range (once r) (λ handler, Call OneShot handler payloadV) ;;;
      setOnce name []
  end.

Definition addEvent (name : string) (handler : handler) (once_ : bool) : M unit :=
  hooks <- (λ w, (Return (addEventHandlers (emitter w)), w)) ;;
  range hooks (λ mitm, callHook AddHook mitm name handler) ;;;
  evs <- getEvents ;;
  match evs !! name with
  | None => setEvents (<[name := mkRegister [] []]> evs)
  | Some _ => ret tt
  end ;;;
  if once_ then
    r <- register name ;;
    setOnce name (once r ++ [handler])
  else
    r <- register name ;;
    setOn name (on r ++ [handler]).

Definition Once (name : string) (handler : handler) : M unit :=
  addEvent name handler true.

Definition On (name : string) (handler : handler) : M unit :=
  addEvent name handler false.

Definition addEventHandler (mitm : hook) : M unit :=
  λ w, (Return tt,
        World (mkEmitter (events (emitter w))
                         (addEventHandlers (emitter w) ++ [mitm])
                         (removeEventHandlers (emitter w)))
              (log w)).

Definition removeEventHandler (mitm : hook) : M unit :=
  λ w, (Return tt,
        World (mkEmitter (events (emitter w))
                         (addEventHandlers (emitter w))
                         (removeEventHandlers (emitter w) ++ [mitm]))
              (log w)).

(** The loop of [RemoveListener] over one sequence: keep, in order, the
    entries whose pointer differs from [handlerPtr]. *)
Definition keepOthers (handlerPtr : N) (l : list handler) : list handler :=
  fold_left (λ acc x, if decide (Pointer x ≠ handlerPtr) then acc ++ [x] else acc)
            l [].

Definition RemoveListener (name : string) (handler : handler) : M unit :=
  hooks <- (λ w, (Return (removeEventHandlers (emitter w)), w)) ;;
  range hooks (λ mitm, callHook RemoveHook mitm name handler) ;;;
  evs <- getEvents ;;
  match evs !! name with
  | None => ret tt
  | Some _ =>
      let handlerPtr := Pointer handler in
      r <- register name ;;
      let onHandlers := keepOthers handlerPtr (on r) in
      setOn name onHandlers ;;;
      r <- register name ;;
      let onceHandlers := keepOthers handlerPtr (once r) in
      setOnce name onceHandlers
  end.

(** [ListenerCount]: the loop ranges over every key of the map; [name] is
    not used in the body.  [count] is a Go [int]; the sum of the lengths
    of slices held in memory stays far below its range. *)
Definition ListenerCount (e : EventEmitter) (name : string) : Z :=
  map_fold (λ (key : string) (r : eventRegister) (count : Z),
              count + (Z.of_nat (length (on r)) + Z.of_nat (length (once r))))
           0 (events e).

Definition initEventEmitter (e : EventEmitter) : EventEmitter :=
  mkEmitter ∅ (addEventHandlers e) (removeEventHandlers e).

(** The slice [payloadV] that [Emit] builds from its payload. *)
Definition payloadVOf (payload : list value) : slice :=
  fold_left append payload (Slice [] 0).

(** ** Running a computation on an emitter *)

Definition run {A} (m : M A) (e : EventEmitter) : exit A * world :=
  m (World e []).

Definition outcome {A} (m : M A) (e : EventEmitter) : exit A := (run m e).1.
Definition exec {A} (m : M A) (e : EventEmitter) : EventEmitter := emitter (run m e).2.
Definition trace {A} (m : M A) (e : EventEmitter) : list call := log (run m e).2.

(** ** What a dispatch does, stated on the inputs *)

(** [accepts h payload]: the call through [reflect] reaches the body of
    [h]; [returns h payload]: it also comes back without a panic. *)
Definition accepts (h : handler) (payload : list value) : bool :=
  bool_decide (NumIn h ≤ length payload)%nat
  && forallb IsValid (take (NumIn h) payload)
  && assignableAll (take (NumIn h) payload) (params h).

Definition returns (h : handler) (payload : list value) : bool :=
  accepts h payload && negb (raises h (take (NumIn h) payload)).

(** The handlers registered under [name], in dispatch order. *)
Definition listeners (e : EventEmitter) (name : string) : list handler :=
  match events e !! name with
  | Some r => on r ++ once r
  | None => []
  end.

Definition onceOf (e : EventEmitter) (name : string) : list handler :=
  match events e !! name with
  | Some r => once r
  | None => []
  end.

Definition onOf (e : EventEmitter) (name : string) : list handler :=
  match events e !! name with
  | Some r => on r
  | None => []
  end.

Definition dispatchOk (e : EventEmitter) (name : string) (payload : list value) : bool :=
  forallb (λ h, returns h payload) (listeners e name).

(** The log entry of a handler entered from site [s] on [payload]. *)
Definition entered (s : site) (payload : list value) (h : handler) : call :=
  CallHandler s h (take (NumIn h) payload).

Definition isOneShot (c : call) : bool :=
  match c with CallHandler OneShot _ _ => true | _ => false end.

(** The emitter with the one-shot sequence of [name] emptied. *)
Definition clearOnce (e : EventEmitter) (name : string) : EventEmitter :=
  match events e !! name with
  | Some r => mkEmitter (<[name := mkRegister [] (on r)]> (events e))
                        (addEventHandlers e) (removeEventHandlers e)
  | None => e
  end.

(** ** The emitter after a subscription and after a removal *)

(** The register under [name], an empty one when there is none yet. *)
Definition registerOf (e : EventEmitter) (name : string) : eventRegister :=
  default (mkRegister [] []) (events e !! name).

(** The emitter once [handler] is appended under [name]. *)
Definition appended (e : EventEmitter) (name : string) (handler : handler)
    (once_ : bool) : EventEmitter :=
  let r := registerOf e name in
  mkEmitter
    (<[name := if once_ then mkRegister (once r ++ [handler]) (on r)
               else mkRegister (once r) (on r ++ [handler])]> (events e))
    (addEventHandlers e) (removeEventHandlers e).

(** The emitter once the entries with the pointer of [handler] are taken
    out of both sequences of [name]. *)
Definition removed (e : EventEmitter) (name : string) (handler : handler) : EventEmitter :=
  match events e !! name with
  | Some r =>
      mkEmitter
        (<[name := mkRegister (filter (λ x, Pointer x ≠ Pointer handler) (once r))
                              (filter (λ x, Pointer x ≠ Pointer handler) (on r))]>
           (events e))
        (addEventHandlers e) (removeEventHandlers e)
  | None => e
  end.

(** ** Counting *)

Definition weight (r : eventRegister) : Z :=
  Z.of_nat (length (on r)) + Z.of_nat (length (once r)).

Definition countAll (m : gmap string eventRegister) : Z :=
  map_fold (λ (key : string) r (count : Z), count + weight r) 0 m.

(** The entries of both sequences of [name] that [RemoveListener] matches
    with [handler]. *)
Definition matched (e : EventEmitter) (name : string) (handler : handler) : nat :=
  length (filter (λ x, Pointer x = Pointer handler) (listeners e name)).

(** ** Callers that recover *)

(** A caller that runs [m] under [defer func() { recover() }()]: a panic
    of [m] stops [m] and the caller goes on. *)
Definition recovered (m : M unit) : M unit :=
  λ w, (Return tt, (m w).2).

(** One [Emit] of [name] per payload of [ps], each recovered. *)
Definition emitAll (name : string) (ps : list (list value)) : M unit :=
  range ps (λ payload, recovered (Emit name payload)).

(** ** The pointer helpers *)

Module Helpers.

(** What a Go variable of type [string], [bool], [int] or [float64]
    holds. *)
Inductive cell :=
| CString (s : string)
| CBool (b : bool)
| CInt (z : Z)
| CFloat (f : spec_float).

(** The variables allocated so far, by address. *)
Abbreviation heap := (gmap positive cell).

(** [&v] on a parameter [v]: the parameter is a variable of the call,
    it escapes, so every call allocates a variable of its own, stores
    [v] in it and yields its address. *)
Definition addressOf (c : cell) (h : heap) : positive * heap :=
  let p := fresh (dom h) in (p, <[p := c]> h).

Definition String (v : string) (h : heap) : positive * heap := addressOf (CString v) h.
Definition Bool (v : bool) (h : heap) : positive * heap := addressOf (CBool v) h.
Definition Int (v : Z) (h : heap) : positive * heap := addressOf (CInt v) h.
Definition Float (v : spec_float) (h : heap) : positive * heap := addressOf (CFloat v) h.

(** [*p] at each of the four pointer types; [None] is the nil or
    ill-typed dereference. *)
Definition loadString (p : positive) (h : heap) : option string :=
  match h !! p with Some (CString s) => Some s | _ => None end.
Definition loadBool (p : positive) (h : heap) : option bool :=
  match h !! p with Some (CBool b) => Some b | _ => None end.
Definition loadInt (p : positive) (h : heap) : option Z :=
  match h !! p with Some (CInt z) => Some z | _ => None end.
Definition loadFloat (p : positive) (h : heap) : option spec_float :=
  match h !! p with Some (CFloat f) => Some f | _ => None end.

End Helpers.

(** ** Sample handlers and emitters *)

(** [func() {}] *)
Definition quiet : handler := Func 1 [] (λ _, false).
(** [func() { panic("boom") }] *)
Definition boom : handler := Func 2 [] (λ _, true).
(** [func(a, b int) {}] *)
Definition pair : handler := Func 3 [TInt; TInt] (λ _, false).
(** [func(a int) {}] *)
Definition single : handler := Func 4 [TInt] (λ _, false).
(** A closure of the function literal of [quiet] that panics: same code
    pointer, another body behaviour. *)
Definition quiet' : handler := Func 1 [] (λ _, true).

(** A zero [EventEmitter] after [initEventEmitter]. *)
Definition blank : EventEmitter := initEventEmitter (mkEmitter ∅ [] []).

(** [e.On("a", quiet); e.On("b", quiet)] *)
Definition twoNames : EventEmitter := exec (On "a" quiet ;;; On "b" quiet) blank.
(** [e.Once("x", boom)] *)
Definition onceBoom : EventEmitter := exec (Once "x" boom) blank.
(** [e.Once("x", quiet); e.On("x", single)] *)
Definition onceQuiet : EventEmitter := exec (Once "x" quiet ;;; On "x" single) blank.
(** [e.On("x", pair); e.On("x", quiet)] *)
Definition pairFirst : EventEmitter := exec (On "x" pair ;;; On "x" quiet) blank.
(** [e.On("x", single); e.Once("x", quiet); e.On("x", pair)] *)
Definition mixed : EventEmitter :=
  exec (On "x" single ;;; Once "x" quiet ;;; On "x" pair) blank.
(** [e.Once("x", quiet); e.Once("x", boom)] *)
Definition quietThenBoom : EventEmitter :=
  exec (Once "x" quiet ;;; Once "x" boom) blank.
(** [e.On("x", quiet)] *)
Definition onQuiet : EventEmitter := exec (On "x" quiet) blank.
(** [e.Once("x", quiet); e.Emit("x")]: an entry for ["x"] with two empty
    sequences. *)
Definition drained : EventEmitter := exec (Once "x" quiet ;;; Emit "x" []) blank.
(** [e.On("y", quiet)]: no entry for ["x"]. *)
Definition onlyY : EventEmitter := exec (On "y" quiet) blank.

(** ** Further observations on a run *)

(** How many handlers of [l], from the front, a dispatch of [payload]
    enters: those whose call returns, and after them the first one whose
    call does not return, when [reflect] gets as far as its body. *)
Fixpoint reach (payload : list value) (l : list handler) : nat :=
  match l with
  | [] => 0%nat
  | h :: l' =>
      if returns h payload then S (reach payload l')
      else if accepts h payload then 1%nat else 0%nat
  end.

(** The log of a dispatch of [payload] in which every call returns. *)
Definition fullDispatch (e : EventEmitter) (name : string) (payload : list value)
    : list call :=
  map (entered Durable payload) (onOf e name)
  ++ map (entered OneShot payload) (onceOf e name).

(** The code pointer of the handler a log entry enters. *)
Definition calleePointer (c : call) : option N :=
  match c with
  | CallHandler _ h _ => Some (Pointer h)
  | CallHook _ _ _ _ _ => None
  end.

(** The body of [ListenerCount] on a map: what a hook is returned when it
    calls [ListenerCount] on the emitter while it runs. *)
Definition countOf (m : gmap string eventRegister) : Z :=
  map_fold (λ (key : string) (r : eventRegister) (count : Z),
              count + (Z.of_nat (length (on r)) + Z.of_nat (length (once r))))
           0 m.

Definition seenCount (c : call) : option Z :=
  match c with
  | CallHook _ _ _ _ seen => Some (countOf seen)
  | CallHandler _ _ _ => None
  end.

(** ** The address of the driver *)

(** [getDriverURL], with [runtime.GOOS] as its argument.
    [fmt.Sprintf("%s%s/%s", a, b, c)] on strings is their concatenation
    with a slash before the last. *)
Definition getDriverURL (GOOS : string) : string * string :=
  let baseURL := "https://storage.googleapis.com/mxschmitt-public-files/" in
  let version := "playwright-driver-1.4.0" in
  let driverName :=
    if decide (GOOS = "windows") then "playwright-driver-win.exe"
    else if decide (GOOS = "darwin") then "playwright-driver-macos"
    else if decide (GOOS = "linux") then "playwright-driver-linux"
    else "" in
  (String.append baseURL (String.append version (String.append "/" driverName)),
   driverName).

(** How many entries of a log enter a handler with code pointer [p]. *)
Definition callsOf (p : N) (l : list call) : nat :=
  length (filter (λ c, calleePointer c = Some p) l).

(** [func(s string) {}] *)
Definition text : handler := Func 5 [TString] (λ _, false).
(** [func(a, b, c, d int) {}] *)
Definition quad : handler := Func 6 [TInt; TInt; TInt; TInt] (λ _, false).
(** [e.Once("x", pair); e.On("x", single)] *)
Definition pairOnce : EventEmitter := exec (Once "x" pair ;;; On "x" single) blank.
(** [e.On("x", quiet); e.Once("x", quiet)] *)
Definition quietBoth : EventEmitter := exec (On "x" quiet ;;; Once "x" quiet) blank.
(** Two hooks. *)
Definition hookA : hook := Hook 1.
Definition hookB : hook := Hook 2.

(** * Lemmas on the monad and the loops *)

Ltac unfoldM :=
  unfold run, outcome, exec, trace, register, setOnce, setOn, callHook,
    bind, ret, throw, getEvents, setEvents, enter in *.

Lemma bind_Return {A B} (m : M A) (k : A → M B) w a w' :
  m w = (Return a, w') → bind m k w = k a w'.
Proof. unfold bind. by intros ->. Qed.

Lemma bind_Panics {A B} (m : M A) (k : A → M B) w p w' :
  m w = (Panics p, w') → bind m k w = (Panics p, w').
Proof. unfold bind. by intros ->. Qed.

Lemma getEvents_run w : getEvents w = (Return (events (emitter w)), w).
Proof. done. Qed.

Lemma register_Some name w r :
  events (emitter w) !! name = Some r → register name w = (Return r, w).
Proof. intros H. unfold register. unfoldM. by rewrite H. Qed.

Lemma setOnce_Some name l w r :
  events (emitter w) !! name = Some r →
  setOnce name l w
  = (Return tt,
     World (mkEmitter (<[name := mkRegister l (on r)]> (events (emitter w)))
                      (addEventHandlers (emitter w)) (removeEventHandlers (emitter w)))
           (log w)).
Proof. intros H. unfold setOnce. by rewrite (bind_Return _ _ _ _ _ (register_Some _ _ _ H)). Qed.

Lemma setOn_Some name l w r :
  events (emitter w) !! name = Some r →
  setOn name l w
  = (Return tt,
     World (mkEmitter (<[name := mkRegister (once r) l]> (events (emitter w)))
                      (addEventHandlers (emitter w)) (removeEventHandlers (emitter w)))
           (log w)).
Proof. intros H. unfold setOn. by rewrite (bind_Return _ _ _ _ _ (register_Some _ _ _ H)). Qed.

Lemma append_fold (payload : list value) (s : slice) :
  (length (elems s) ≤ cap s)%nat →
  elems (fold_left append payload s) = elems s ++ payload
  ∧ (length (elems (fold_left append payload s)) ≤ cap (fold_left append payload s))%nat.
Proof.
  revert s. induction payload as [|p payload IH]; intros s Hs; simpl.
  - by rewrite app_nil_r.
  - destruct (IH (append s p)) as [He Hc].
    { unfold append. repeat case_decide; simpl; rewrite length_app; simpl; lia. }
    split; [|done]. rewrite He. unfold append.
    case_decide; simpl; by rewrite <- app_assoc.
Qed.

Lemma payloadV_payload (payload : list value) :
  elems (payloadVOf payload) = payload.
Proof. apply (append_fold payload (Slice [] 0)). simpl. lia. Qed.

Lemma payloadV_cap (payload : list value) :
  (length payload ≤ cap (payloadVOf payload))%nat.
Proof.
  destruct (append_fold payload (Slice [] 0)) as [He Hc]; [simpl; lia|].
  unfold payloadVOf. by rewrite He in Hc.
Qed.

(** Within the payload the slice expression yields its leading values. *)
Lemma reslice_within (payload : list value) (n : nat) :
  (n ≤ length payload)%nat → reslice (payloadVOf payload) n = Some (take n payload).
Proof.
  intros Hn. unfold reslice. pose proof (payloadV_cap payload).
  rewrite decide_True by lia. rewrite payloadV_payload.
  by rewrite take_app_le.
Qed.

(** Past the payload it panics, or yields a zero Value. *)
Lemma reslice_beyond (payload : list value) (n : nat) :
  (length payload < n)%nat →
  match reslice (payloadVOf payload) n with
  | None => True
  | Some args => forallb IsValid args = false
  end.
Proof.
  intros Hn. unfold reslice. case_decide as Hc; [|done].
  rewrite payloadV_payload. apply not_true_is_false. intros Hall.
  rewrite forallb_forall in Hall.
  assert (VNil ∈ take n (payload ++ replicate (cap (payloadVOf payload) - length payload) VNil))
    as Hin.
  { apply list_elem_of_lookup. exists (length payload).
    rewrite lookup_take_lt by lia. rewrite lookup_app_r by lia.
    apply lookup_replicate. split; [done|]. lia. }
  apply list_elem_of_In, Hall in Hin. done.
Qed.

(** A call whose arguments pass [reflect]'s checks enters the body. *)
Lemma Call_accepts s h payload w :
  accepts h payload = true →
  Call s h (payloadVOf payload) w
  = (enter (entered s payload h) ;;;
     if raises h (take (NumIn h) payload) then throw Raised else ret tt) w.
Proof.
  unfold accepts, Call, entered. intros H.
  apply andb_prop in H as [H Hassign].
  apply andb_prop in H as [Hlen Hvalid].
  apply bool_decide_eq_true in Hlen. rewrite reslice_within by done.
  by rewrite Hvalid, Hassign.
Qed.

(** A call whose arguments do not pass them panics without entering it. *)
Lemma Call_rejects s h payload w :
  accepts h payload = false →
  ∃ p, Call s h (payloadVOf payload) w = (Panics p, w).
Proof.
  unfold accepts, Call. intros H.
  destruct (decide (NumIn h ≤ length payload)%nat) as [Hle|Hgt].
  - rewrite bool_decide_eq_true_2 in H by done. simpl in H.
    rewrite reslice_within by done.
    destruct (forallb IsValid (take (NumIn h) payload)); simpl in *; [|by eexists].
    rewrite H. simpl. by eexists.
  - pose proof (reslice_beyond payload (NumIn h)) as Hb.
    destruct (reslice (payloadVOf payload) (NumIn h)) as [args|]; [|by eexists].
    rewrite Hb by lia. simpl. by eexists.
Qed.

Lemma keepOthers_acc (p : N) (l acc : list handler) :
  fold_left (λ acc x, if decide (Pointer x ≠ p) then acc ++ [x] else acc) l acc
  = acc ++ filter (λ x, Pointer x ≠ p) l.
Proof.
  revert acc. induction l as [|x l IH]; intros acc; simpl.
  - by rewrite app_nil_r.
  - rewrite IH. rewrite filter_cons. destruct (decide (Pointer x ≠ p)); [|done].
    by rewrite <- app_assoc.
Qed.

Lemma keepOthers_filter (p : N) (l : list handler) :
  keepOthers p l = filter (λ x, Pointer x ≠ p) l.
Proof. apply (keepOthers_acc p l []). Qed.

Lemma Call_returns s h payload w :
  returns h payload = true →
  Call s h (payloadVOf payload) w
  = (Return tt, World (emitter w) (log w ++ [entered s payload h])).
Proof.
  unfold returns. intros [Ha Hbody]%andb_prop.
  rewrite Call_accepts by done. unfoldM. simpl.
  apply negb_true_iff in Hbody. by rewrite Hbody.
Qed.

Lemma Call_fails s h payload w :
  returns h payload = false →
  ∃ p, (Call s h (payloadVOf payload) w).1 = Panics p
       ∧ emitter (Call s h (payloadVOf payload) w).2 = emitter w.
Proof.
  unfold returns. intros H.
  destruct (accepts h payload) eqn:Ha; simpl in H.
  - rewrite Call_accepts by done. unfoldM. simpl.
    apply negb_false_iff in H. rewrite H. by eexists.
  - destruct (Call_rejects s h payload w Ha) as [p ->]. by eexists.
Qed.

Lemma Call_emitter s h payload w :
  emitter (Call s h (payloadVOf payload) w).2 = emitter w.
Proof.
  destruct (returns h payload) eqn:H.
  - by rewrite Call_returns.
  - by destruct (Call_fails s h payload w H) as (? & _ & ->).
Qed.

Lemma range_Call_returns s hs payload w :
  forallb (λ h, returns h payload) hs = true →
  range hs (λ h, Call s h (payloadVOf payload)) w
  = (Return tt, World (emitter w) (log w ++ map (entered s payload) hs)).
Proof.
  revert w. induction hs as [|h hs IH]; intros w H; simpl in *.
  - unfold ret. rewrite app_nil_r. by destruct w.
  - apply andb_prop in H as [Hh Hhs]. unfold bind at 1.
    rewrite Call_returns by done. rewrite IH by done. simpl.
    by rewrite <- app_assoc.
Qed.

Lemma range_Call_fails s hs payload w :
  forallb (λ h, returns h payload) hs = false →
  ∃ p, (range hs (λ h, Call s h (payloadVOf payload)) w).1 = Panics p.
Proof.
  revert w. induction hs as [|h hs IH]; intros w H; simpl in *; [done|].
  unfold bind at 1. destruct (returns h payload) eqn:Hh; simpl in H.
  - rewrite Call_returns by done. by apply IH.
  - destruct (Call_fails s h payload w Hh) as (p & Hp & _).
    destruct (Call s h (payloadVOf payload) w) as [[[]|p'] w']; simpl in *; [done|]. by eexists.
Qed.

Lemma range_Call_emitter s hs payload w :
  emitter (range hs (λ h, Call s h (payloadVOf payload)) w).2 = emitter w.
Proof.
  revert w. induction hs as [|h hs IH]; intros w; simpl; [done|].
  unfold bind at 1. pose proof (Call_emitter s h payload w) as He.
  destruct (Call s h (payloadVOf payload) w) as [[[]|p'] w']; simpl in *; [|done].
  by rewrite IH.
Qed.

(** The hooks: every one is entered, in order, and sees the map as it is
    when the loop starts. *)
Lemma range_callHook s hooks name h w :
  range hooks (λ mitm, callHook s mitm name h) w
  = (Return tt,
     World (emitter w)
           (log w ++ map (λ mitm, CallHook s mitm name h (events (emitter w))) hooks)).
Proof.
  revert w. induction hooks as [|k hooks IH]; intros w; simpl.
  - unfold ret. rewrite app_nil_r. by destruct w.
  - unfold bind at 1. unfold callHook at 1. unfoldM. simpl.
    rewrite IH. simpl. by rewrite <- app_assoc.
Qed.

(** Whatever happens, the entries a loop of calls adds to the log are
    those of a prefix of the sequence, in order. *)
Lemma range_Call_log s hs payload w :
  ∃ n, log (range hs (λ h, Call s h (payloadVOf payload)) w).2
       = log w ++ map (entered s payload) (take n hs).
Proof.
  revert w. induction hs as [|h hs IH]; intros w; simpl.
  - exists 0%nat. simpl. by rewrite app_nil_r.
  - unfold bind at 1. destruct (returns h payload) eqn:Hh.
    + rewrite Call_returns by done.
      destruct (IH (World (emitter w) (log w ++ [entered s payload h]))) as [n Hn].
      exists (S n). rewrite Hn. simpl. by rewrite <- app_assoc.
    + unfold returns in Hh. destruct (accepts h payload) eqn:Ha; simpl in Hh.
      * rewrite Call_accepts by done. unfoldM. simpl.
        apply negb_false_iff in Hh. rewrite Hh.
        exists 1%nat. by destruct hs.
      * destruct (Call_rejects s h payload w Ha) as [p ->].
        exists 0%nat. simpl. by rewrite app_nil_r.
Qed.

(** * [Emit] *)

Lemma Emit_absent name payload w :
  events (emitter w) !! name = None → Emit name payload w = (Return tt, w).
Proof. intros H. unfold Emit. unfoldM. by rewrite H. Qed.

Lemma Emit_present name payload w r :
  events (emitter w) !! name = Some r →
  Emit name payload w
  = (range (on r) (λ handler, Call Durable handler (payloadVOf payload)) ;;;
     r <- register name ;;
     range (once r) (λ handler, Call OneShot handler (payloadVOf payload)) ;;;
     setOnce name []) w.
Proof.
  intros Hr. unfold Emit. fold (payloadVOf payload).
  rewrite (bind_Return _ _ _ _ _ (getEvents_run w)). rewrite Hr.
  by rewrite (bind_Return _ _ _ _ _ (register_Some _ _ _ Hr)).
Qed.

Lemma Emit_returns name payload w r :
  events (emitter w) !! name = Some r →
  forallb (λ h, returns h payload) (on r ++ once r) = true →
  Emit name payload w
  = (Return tt,
     World (clearOnce (emitter w) name)
           (log w ++ map (entered Durable payload) (on r)
                  ++ map (entered OneShot payload) (once r))).
Proof.
  intros Hr Hok. rewrite forallb_app in Hok. apply andb_prop in Hok as [Hon Honce].
  rewrite (Emit_present _ _ _ _ Hr).
  rewrite (bind_Return _ _ _ _ _ (range_Call_returns _ _ _ _ Hon)).
  erewrite bind_Return; [|by apply register_Some].
  rewrite (bind_Return _ _ _ _ _ (range_Call_returns _ _ _ _ Honce)).
  erewrite setOnce_Some by done. simpl. unfold clearOnce. rewrite Hr.
  by rewrite <- app_assoc.
Qed.

Lemma Emit_panics name payload w r :
  events (emitter w) !! name = Some r →
  forallb (λ h, returns h payload) (on r ++ once r) = false →
  ∃ p, (Emit name payload w).1 = Panics p ∧ emitter (Emit name payload w).2 = emitter w.
Proof.
  intros Hr Hbad. rewrite forallb_app in Hbad.
  rewrite (Emit_present _ _ _ _ Hr).
  destruct (forallb (λ h, returns h payload) (on r)) eqn:Hon; simpl in Hbad.
  - rewrite (bind_Return _ _ _ _ _ (range_Call_returns _ _ _ _ Hon)).
    erewrite bind_Return; [|by apply register_Some].
    set (w1 := World (emitter w) (log w ++ map (entered Durable payload) (on r))).
    destruct (range_Call_fails OneShot (once r) payload w1 Hbad) as [p Hp].
    pose proof (range_Call_emitter OneShot (once r) payload w1) as He.
    destruct (range (once r) _ w1) as [[[]|p'] w'] eqn:E; simpl in *; [done|].
    rewrite (bind_Panics _ _ _ _ _ E). eauto.
  - destruct (range_Call_fails Durable (on r) payload w Hon) as [p Hp].
    pose proof (range_Call_emitter Durable (on r) payload w) as He.
    destruct (range (on r) _ w) as [[[]|p'] w'] eqn:E; simpl in *; [done|].
    rewrite (bind_Panics _ _ _ _ _ E). eauto.
Qed.

Lemma Emit_log name payload w r :
  events (emitter w) !! name = Some r →
  ∃ n m, log (Emit name payload w).2
         = log w ++ map (entered Durable payload) (take n (on r))
                 ++ map (entered OneShot payload) (take m (once r)).
Proof.
  intros Hr. rewrite (Emit_present _ _ _ _ Hr).
  destruct (range_Call_log Durable (on r) payload w) as [n Hn].
  pose proof (range_Call_emitter Durable (on r) payload w) as He.
  destruct (range (on r) _ w) as [[[]|p'] w'] eqn:E1; simpl in *.
  - rewrite (bind_Return _ _ _ _ _ E1).
    assert (events (emitter w') !! name = Some r) as Hr' by by rewrite He.
    rewrite (bind_Return _ _ _ _ _ (register_Some _ _ _ Hr')).
    destruct (range_Call_log OneShot (once r) payload w') as [m Hm].
    pose proof (range_Call_emitter OneShot (once r) payload w') as He'.
    destruct (range (once r) _ w') as [[[]|p''] w''] eqn:E2; simpl in *.
    + rewrite (bind_Return _ _ _ _ _ E2).
      assert (events (emitter w'') !! name = Some r) as Hr'' by by rewrite He'.
      rewrite (setOnce_Some _ _ _ _ Hr''). simpl.
      exists n, m. rewrite Hm, Hn. by rewrite <- app_assoc.
    + rewrite (bind_Panics _ _ _ _ _ E2). simpl.
      exists n, m. rewrite Hm, Hn. by rewrite <- app_assoc.
  - rewrite (bind_Panics _ _ _ _ _ E1). simpl.
    exists n, 0%nat. simpl. by rewrite app_nil_r.
Qed.

(** The state [Emit] leaves: the one-shot sequence is emptied exactly when
    every call returned. *)
Lemma Emit_emitter name payload w :
  emitter (Emit name payload w).2
  = if dispatchOk (emitter w) name payload then clearOnce (emitter w) name
    else emitter w.
Proof.
  unfold dispatchOk, listeners.
  destruct (events (emitter w) !! name) as [r|] eqn:Hr.
  - destruct (forallb (λ h, returns h payload) (on r ++ once r)) eqn:Hok.
    + by rewrite (Emit_returns name payload w r).
    + by destruct (Emit_panics name payload w r Hr Hok) as (p & _ & ->).
  - rewrite Emit_absent by done. simpl. unfold clearOnce. by rewrite Hr.
Qed.

Lemma Emit_exit name payload w :
  (Emit name payload w).1
  = Return tt ↔ dispatchOk (emitter w) name payload = true.
Proof.
  unfold dispatchOk, listeners.
  destruct (events (emitter w) !! name) as [r|] eqn:Hr.
  - destruct (forallb (λ h, returns h payload) (on r ++ once r)) eqn:Hok.
    + by rewrite (Emit_returns name payload w r).
    + destruct (Emit_panics name payload w r Hr Hok) as (p & -> & _). done.
  - by rewrite Emit_absent.
Qed.

(** * [addEvent] and [RemoveListener] *)

(** Hooks registered one after the other end up in that order, after the
    ones already there. *)
Lemma addEventHandler_range ks w :
  range ks addEventHandler w
  = (Return tt,
     World (mkEmitter (events (emitter w)) (addEventHandlers (emitter w) ++ ks)
                      (removeEventHandlers (emitter w)))
           (log w)).
Proof.
  revert w. induction ks as [|k ks IH]; intros w; simpl.
  - rewrite app_nil_r. by destruct w as [[] ?].
  - unfold bind at 1. unfold addEventHandler at 1. rewrite IH. simpl.
    by rewrite <- app_assoc.
Qed.

Lemma removeEventHandler_range ks w :
  range ks removeEventHandler w
  = (Return tt,
     World (mkEmitter (events (emitter w)) (addEventHandlers (emitter w))
                      (removeEventHandlers (emitter w) ++ ks))
           (log w)).
Proof.
  revert w. induction ks as [|k ks IH]; intros w; simpl.
  - rewrite app_nil_r. by destruct w as [[] ?].
  - unfold bind at 1. unfold removeEventHandler at 1. rewrite IH. simpl.
    by rewrite <- app_assoc.
Qed.

Lemma addEvent_run name h once_ w :
  addEvent name h once_ w
  = (Return tt,
     World (appended (emitter w) name h once_)
           (log w ++ map (λ mitm, CallHook AddHook mitm name h (events (emitter w)))
                         (addEventHandlers (emitter w)))).
Proof.
  unfold addEvent.
  erewrite bind_Return; [|reflexivity].
  rewrite (bind_Return _ _ _ _ _ (range_callHook _ _ _ _ _)).
  erewrite bind_Return; [|apply getEvents_run]. simpl.
  unfold appended, registerOf. simpl.
  destruct (events (emitter w) !! name) as [r|] eqn:Hr; simpl.
  - erewrite bind_Return; [|reflexivity].
    destruct once_.
    + erewrite bind_Return; [|by apply register_Some].
      by erewrite setOnce_Some by done.
    + erewrite bind_Return; [|by apply register_Some].
      by erewrite setOn_Some by done.
  - erewrite bind_Return; [|reflexivity]. simpl.
    destruct once_.
    + erewrite bind_Return; [|apply register_Some; simpl; apply lookup_insert_eq].
      erewrite setOnce_Some by (simpl; apply lookup_insert_eq).
      simpl. by rewrite insert_insert_eq.
    + erewrite bind_Return; [|apply register_Some; simpl; apply lookup_insert_eq].
      erewrite setOn_Some by (simpl; apply lookup_insert_eq).
      simpl. by rewrite insert_insert_eq.
Qed.

Lemma RemoveListener_run name h w :
  RemoveListener name h w
  = (Return tt,
     World (removed (emitter w) name h)
           (log w ++ map (λ mitm, CallHook RemoveHook mitm name h (events (emitter w)))
                         (removeEventHandlers (emitter w)))).
Proof.
  unfold RemoveListener.
  erewrite bind_Return; [|reflexivity].
  rewrite (bind_Return _ _ _ _ _ (range_callHook _ _ _ _ _)).
  erewrite bind_Return; [|apply getEvents_run]. simpl.
  unfold removed.
  destruct (events (emitter w) !! name) as [r|] eqn:Hr; simpl.
  - erewrite bind_Return; [|by apply register_Some].
    erewrite bind_Return; [|by apply setOn_Some].
    erewrite bind_Return; [|apply register_Some; simpl; apply lookup_insert_eq].
    erewrite setOnce_Some by (simpl; apply lookup_insert_eq).
    simpl. rewrite insert_insert_eq. by rewrite !keepOthers_filter.
  - by destruct w as [[] ?].
Qed.

Lemma emitter_eta (e : EventEmitter) :
  mkEmitter (events e) (addEventHandlers e) (removeEventHandlers e) = e.
Proof. by destruct e. Qed.

Lemma clearOnce_empty e name :
  onceOf e name = [] → clearOnce e name = e.
Proof.
  unfold onceOf, clearOnce. destruct (events e !! name) as [[o d]|] eqn:Hr; [|done].
  simpl. intros ->. rewrite insert_id by done. apply emitter_eta.
Qed.

Lemma onceOf_clearOnce e name : onceOf (clearOnce e name) name = [].
Proof.
  unfold onceOf, clearOnce. destruct (events e !! name) as [r|] eqn:Hr; simpl.
  - by rewrite lookup_insert_eq.
  - by rewrite Hr.
Qed.

Lemma onOf_clearOnce e name name' : onOf (clearOnce e name) name' = onOf e name'.
Proof.
  unfold onOf, clearOnce. destruct (events e !! name) as [r|] eqn:Hr; [|done].
  simpl. destruct (decide (name = name')) as [<-|Hne].
  - by rewrite lookup_insert_eq, Hr.
  - by rewrite lookup_insert_ne.
Qed.

Lemma filter_same_pointer (p : N) (l : list handler) :
  Forall (λ x, Pointer x ≠ p) l → filter (λ x, Pointer x ≠ p) l = l.
Proof.
  induction 1 as [|x l Hx _ IH]; [done|].
  rewrite filter_cons, decide_True by done. by rewrite IH.
Qed.

(** * [ListenerCount] *)

Lemma ListenerCount_countAll e name : ListenerCount e name = countAll (events e).
Proof. done. Qed.

Lemma countAll_empty : countAll ∅ = 0.
Proof. unfold countAll. by rewrite map_fold_empty. Qed.

Lemma ListenerCount_initEventEmitter e name :
  ListenerCount (initEventEmitter e) name = 0.
Proof. apply countAll_empty. Qed.

Lemma countAll_insert_None m i r :
  m !! i = None → countAll (<[i := r]> m) = countAll m + weight r.
Proof.
  intros H. unfold countAll. rewrite map_fold_insert_L; [done| |done].
  intros. lia.
Qed.

Lemma countAll_delete m i r :
  m !! i = Some r → countAll m = countAll (delete i m) + weight r.
Proof.
  intros H. rewrite <- (insert_delete_id m i r) at 1 by done.
  apply countAll_insert_None, lookup_delete_eq.
Qed.

Lemma countAll_insert m i r :
  countAll (<[i := r]> m) = countAll (delete i m) + weight r.
Proof.
  rewrite <- insert_delete_eq. apply countAll_insert_None, lookup_delete_eq.
Qed.

Lemma countAll_sum m :
  countAll m
  = Z.of_nat (sum_list_with (λ kr : string * eventRegister,
                               length (on kr.2) + length (once kr.2))%nat
                            (map_to_list m)).
Proof.
  unfold countAll. rewrite map_fold_foldr.
  induction (map_to_list m) as [|[k r] l IH]; simpl; [done|].
  rewrite IH. unfold weight. lia.
Qed.

Lemma length_filter_split (p : N) (l : list handler) :
  length l
  = (length (filter (λ x, Pointer x ≠ p) l) + length (filter (λ x, Pointer x = p) l))%nat.
Proof.
  induction l as [|x l IH]; [done|]. rewrite !filter_cons.
  destruct (decide (Pointer x = p)).
  - rewrite decide_False by naive_solver. simpl. lia.
  - rewrite decide_True by done. simpl. lia.
Qed.

Lemma ListenerCount_appended e name h once_ name' :
  ListenerCount (appended e name h once_) name' = ListenerCount e name' + 1.
Proof.
  rewrite !ListenerCount_countAll. unfold appended, registerOf. simpl.
  rewrite countAll_insert.
  destruct (events e !! name) as [r|] eqn:Hr; simpl.
  - rewrite (countAll_delete _ _ _ Hr).
    destruct once_; unfold weight; simpl; rewrite length_app; simpl; lia.
  - rewrite delete_id by done. destruct once_; unfold weight; simpl; lia.
Qed.

Lemma ListenerCount_removed e name h name' :
  ListenerCount (removed e name h) name'
  = ListenerCount e name' - Z.of_nat (matched e name h).
Proof.
  rewrite !ListenerCount_countAll. unfold removed, matched, listeners.
  destruct (events e !! name) as [r|] eqn:Hr; simpl; [|lia].
  rewrite countAll_insert, (countAll_delete _ _ _ Hr).
  unfold weight. simpl. rewrite filter_app, length_app.
  pose proof (length_filter_split (Pointer h) (on r)).
  pose proof (length_filter_split (Pointer h) (once r)). lia.
Qed.

(** * Several [Emit]s *)

Lemma filter_isOneShot_Durable payload hs :
  filter isOneShot (map (entered Durable payload) hs) = [].
Proof. induction hs as [|h hs IH]; [done|]. simpl. by rewrite filter_cons. Qed.

Lemma filter_isOneShot_OneShot payload hs :
  filter isOneShot (map (entered OneShot payload) hs) = map (entered OneShot payload) hs.
Proof.
  induction hs as [|h hs IH]; [done|]. simpl. rewrite filter_cons. simpl.
  by rewrite IH.
Qed.

(** With an empty one-shot sequence an [Emit] enters no one-shot handler
    and leaves the sequence empty, whether it returns or panics. *)
Lemma Emit_no_once name payload w :
  onceOf (emitter w) name = [] →
  filter isOneShot (log (Emit name payload w).2) = filter isOneShot (log w)
  ∧ onceOf (emitter (Emit name payload w).2) name = [].
Proof.
  intros Hnone. split.
  - unfold onceOf in Hnone.
    destruct (events (emitter w) !! name) as [r|] eqn:Hr.
    + destruct (Emit_log name payload w r Hr) as (n & m & ->).
      rewrite Hnone, take_nil. simpl.
      rewrite !filter_app, filter_isOneShot_Durable. simpl.
      by rewrite !app_nil_r.
    + by rewrite Emit_absent.
  - rewrite Emit_emitter. destruct (dispatchOk _ _ _); [|done].
    apply onceOf_clearOnce.
Qed.

Lemma emitAll_no_once name ps w :
  onceOf (emitter w) name = [] →
  filter isOneShot (log (emitAll name ps w).2) = filter isOneShot (log w).
Proof.
  revert w. induction ps as [|payload ps IH]; intros w Hnone; [done|].
  unfold emitAll. simpl. unfold bind at 1, recovered at 1.
  destruct (Emit_no_once name payload w Hnone) as [Hlog Honce].
  fold (emitAll name ps). rewrite IH by done. done.
Qed.

Lemma listeners_split e name : listeners e name = onOf e name ++ onceOf e name.
Proof. unfold listeners, onOf, onceOf. by destruct (events e !! name). Qed.

Lemma onOf_appended e name h once_ :
  onOf (appended e name h once_) name
  = if once_ then onOf e name else onOf e name ++ [h].
Proof.
  unfold onOf, appended, registerOf. simpl. rewrite lookup_insert_eq.
  destruct (events e !! name); by destruct once_.
Qed.

Lemma onceOf_appended e name h once_ :
  onceOf (appended e name h once_) name
  = if once_ then onceOf e name ++ [h] else onceOf e name.
Proof.
  unfold onceOf, appended, registerOf. simpl. rewrite lookup_insert_eq.
  destruct (events e !! name); by destruct once_.
Qed.

Lemma events_appended_ne e name h once_ name' :
  name ≠ name' → events (appended e name h once_) !! name' = events e !! name'.
Proof. intros H. unfold appended. simpl. by rewrite lookup_insert_ne. Qed.

Lemma onOf_removed e name h :
  onOf (removed e name h) name = filter (λ x, Pointer x ≠ Pointer h) (onOf e name).
Proof.
  unfold onOf, removed. destruct (events e !! name) as [r|] eqn:Hr; simpl.
  - by rewrite lookup_insert_eq.
  - by rewrite Hr.
Qed.

Lemma onceOf_removed e name h :
  onceOf (removed e name h) name = filter (λ x, Pointer x ≠ Pointer h) (onceOf e name).
Proof.
  unfold onceOf, removed. destruct (events e !! name) as [r|] eqn:Hr; simpl.
  - by rewrite lookup_insert_eq.
  - by rewrite Hr.
Qed.

Lemma events_removed_ne e name h name' :
  name ≠ name' → events (removed e name h) !! name' = events e !! name'.
Proof.
  intros H. unfold removed. destruct (events e !! name); [|done].
  simpl. by rewrite lookup_insert_ne.
Qed.

Lemma removed_unmatched e name h :
  Forall (λ x, Pointer x ≠ Pointer h) (listeners e name) → removed e name h = e.
Proof.
  unfold listeners, removed. destruct (events e !! name) as [[o d]|] eqn:Hr; [|done].
  simpl. intros [Hd Ho]%Forall_app.
  rewrite !filter_same_pointer by done. rewrite insert_id by done.
  apply emitter_eta.
Qed.

Lemma removed_idemp e name h :
  removed (removed e name h) name h = removed e name h.
Proof.
  apply removed_unmatched. rewrite listeners_split, onOf_removed, onceOf_removed.
  apply Forall_app. split; apply Forall_forall; intros x Hx;
    by apply list_elem_of_filter in Hx as [? _].
Qed.

Lemma removed_same_pointer e name h h' :
  Pointer h = Pointer h' → removed e name h = removed e name h'.
Proof. unfold removed. by intros ->. Qed.

(** * The pointer helpers *)

Lemma addressOf_lookup c (h : gmap positive Helpers.cell) :
  (Helpers.addressOf c h).2 !! (Helpers.addressOf c h).1 = Some c.
Proof. unfold Helpers.addressOf. simpl. apply lookup_insert_eq. Qed.

(** The variable is new, and the ones allocated before keep their value. *)
Lemma addressOf_fresh c (h : gmap positive Helpers.cell) :
  h !! (Helpers.addressOf c h).1 = None
  ∧ ∀ q, q ≠ (Helpers.addressOf c h).1 → (Helpers.addressOf c h).2 !! q = h !! q.
Proof.
  unfold Helpers.addressOf. simpl. split.
  - apply not_elem_of_dom, is_fresh.
  - intros q Hq. by rewrite lookup_insert_ne.
Qed.

(** Two calls yield two different variables. *)
Lemma addressOf_distinct c1 c2 (h : gmap positive Helpers.cell) :
  (Helpers.addressOf c2 (Helpers.addressOf c1 h).2).1 ≠ (Helpers.addressOf c1 h).1.
Proof.
  intros Heq. destruct (addressOf_fresh c2 (Helpers.addressOf c1 h).2) as [Hnone _].
  rewrite Heq, addressOf_lookup in Hnone. done.
Qed.


(** What [ListenerCount] does follow: every subscription adds one to it
    and every removal takes the matched entries from it, whatever the
    name asked for. *)
Lemma ListenerCount_after_addEvent e name h once_ name' :
  ListenerCount (exec (addEvent name h once_) e) name' = ListenerCount e name' + 1.
Proof.
  unfold exec, run. rewrite addEvent_run. simpl. apply ListenerCount_appended.
Qed.

Lemma ListenerCount_after_RemoveListener e name h name' :
  ListenerCount (exec (RemoveListener name h) e) name'
  = ListenerCount e name' - Z.of_nat (matched e name h).
Proof.
  unfold exec, run. rewrite RemoveListener_run. simpl. apply ListenerCount_removed.
Qed.

(** * The claims *)

(** ** C1: [ListenerCount] and the event name *)

(** C1, on the code.  [ListenerCount(n)] is claimed to be the number of
    handlers registered under [n], whatever is registered under other
    names.  After [On("a", quiet)] and [On("b", quiet)] one handler is
    registered under ["a"], and [ListenerCount("a")] is 2: the handler
    under ["b"] is counted too.  With the subscription under ["a"] alone
    it is 1. *)
Theorem ListenerCount_counts_other_names :
  length (listeners twoNames "a") = 1%nat
  ∧ length (listeners twoNames "b") = 1%nat
  ∧ ListenerCount twoNames "a" = 2
  ∧ ListenerCount (exec (On "a" quiet) blank) "a" = 1.
Proof. by vm_compute. Qed.

(** ** C2: the one-shot sequence after [Emit] *)

(** C2, refuted.  A one-shot handler that panics: [Emit] ends in that
    panic, the one-shot sequence of the name is not emptied, and the next
    [Emit] enters the same handler again. *)
Lemma Emit_panic_keeps_once :
  outcome (Emit "x" []) onceBoom = Panics Raised
  ∧ onceOf (exec (Emit "x" []) onceBoom) "x" = [boom]
  ∧ trace (Emit "x" []) (exec (Emit "x" []) onceBoom) = [CallHandler OneShot boom []].
Proof. by vm_compute. Qed.

(** C2, amended.  When [Emit(name, ...)] returns, the one-shot sequence of
    [name] is empty and no later [Emit] of [name] enters a one-shot
    handler; when a handler call panics, the panic leaves [Emit] and the
    emitter is as it was before the call, one-shot sequence included. *)
Theorem Emit_clears_once_when_it_returns (e : EventEmitter) (name : string)
    (payload : list value) :
  (outcome (Emit name payload) e = Return tt →
     onceOf (exec (Emit name payload) e) name = []
     ∧ ∀ ps, filter isOneShot (trace (emitAll name ps) (exec (Emit name payload) e)) = [])
  ∧ (∀ p, outcome (Emit name payload) e = Panics p →
       exec (Emit name payload) e = e).
Proof.
  unfold outcome, exec, trace, run.
  pose proof (Emit_exit name payload (World e [])) as Hexit.
  pose proof (Emit_emitter name payload (World e [])) as Hst. simpl in *.
  split.
  - intros Hret. apply Hexit in Hret. rewrite Hret in Hst.
    assert (onceOf (emitter (Emit name payload (World e [])).2) name = []) as Hnone
      by (rewrite Hst; apply onceOf_clearOnce).
    split; [done|]. intros ps.
    by rewrite emitAll_no_once.
  - intros p Hp. destruct (dispatchOk e name payload); [|done].
    destruct Hexit as [_ Hexit]. rewrite Hexit in Hp by done. done.
Qed.

Lemma Emit_clears_once_when_it_returns_witness :
  outcome (Emit "x" [VInt 7]) onceQuiet = Return tt
  ∧ onceOf onceQuiet "x" = [quiet]
  ∧ onceOf (exec (Emit "x" [VInt 7]) onceQuiet) "x" = []
  ∧ filter isOneShot
      (trace (emitAll "x" [[VInt 8]; []]) (exec (Emit "x" [VInt 7]) onceQuiet)) = []
  ∧ outcome (Emit "x" []) onceBoom = Panics Raised
  ∧ exec (Emit "x" []) onceBoom = onceBoom.
Proof.
  assert (outcome (Emit "x" [VInt 7]) onceQuiet = Return tt) as Hret by reflexivity.
  assert (outcome (Emit "x" []) onceBoom = Panics Raised) as Hpanic by reflexivity.
  destruct (Emit_clears_once_when_it_returns onceQuiet "x" [VInt 7]) as [Hclear _].
  destruct (Emit_clears_once_when_it_returns onceBoom "x" []) as [_ Hkeep].
  destruct (Hclear Hret) as [Hnone Hlater].
  exact (conj Hret (conj eq_refl (conj Hnone (conj (Hlater [[VInt 8]; []])
           (conj Hpanic (Hkeep Raised Hpanic)))))).
Defined.

(** ** C3: the order of dispatch and the arguments *)

(** C3, refuted.  Two durable handlers under ["x"], the first declaring
    two parameters: [Emit("x", 1)] panics on the slice of the payload and
    enters neither handler. *)
Lemma Emit_skips_handlers_on_panic :
  onOf pairFirst "x" = [pair; quiet]
  ∧ outcome (Emit "x" [VInt 1]) pairFirst = Panics OutOfRange
  ∧ trace (Emit "x" [VInt 1]) pairFirst = [].
Proof. by vm_compute. Qed.

(** C3, amended.  When every handler call of [Emit(name, args...)] returns
    (each handler declares at most [len(args)] parameters, its leading
    arguments are non-nil and assignable to them, and its body does not
    panic), [Emit] returns having entered every durable handler, then
    every one-shot handler, each group in registration order, each with
    exactly the leading [NumIn] arguments of [args]. *)
Theorem Emit_dispatch_order (e : EventEmitter) (name : string) (payload : list value) :
  dispatchOk e name payload = true →
  outcome (Emit name payload) e = Return tt
  ∧ trace (Emit name payload) e
    = map (λ h, CallHandler Durable h (take (NumIn h) payload)) (onOf e name)
      ++ map (λ h, CallHandler OneShot h (take (NumIn h) payload)) (onceOf e name).
Proof.
  intros Hok. unfold outcome, trace, run, onOf, onceOf.
  unfold dispatchOk, listeners in Hok.
  destruct (events e !! name) as [r|] eqn:Hr.
  - by rewrite (Emit_returns name payload (World e []) r).
  - by rewrite Emit_absent.
Qed.

Lemma Emit_dispatch_order_witness :
  dispatchOk mixed "x" [VInt 1; VInt 2; VString "more"] = true
  ∧ outcome (Emit "x" [VInt 1; VInt 2; VString "more"]) mixed = Return tt
  ∧ trace (Emit "x" [VInt 1; VInt 2; VString "more"]) mixed
    = [CallHandler Durable single [VInt 1];
       CallHandler Durable pair [VInt 1; VInt 2];
       CallHandler OneShot quiet []].
Proof.
  split; [reflexivity|].
  exact (Emit_dispatch_order mixed "x" [VInt 1; VInt 2; VString "more"] eq_refl).
Defined.

(** In every case the handlers entered are a prefix of that order: the
    calls stop at the first one that panics. *)
Lemma Emit_trace_prefix (e : EventEmitter) (name : string) (payload : list value) :
  ∃ n m, trace (Emit name payload) e
         = map (entered Durable payload) (take n (onOf e name))
           ++ map (entered OneShot payload) (take m (onceOf e name)).
Proof.
  unfold trace, run, onOf, onceOf.
  destruct (events e !! name) as [r|] eqn:Hr.
  - destruct (Emit_log name payload (World e []) r Hr) as (n & m & Hlog).
    by exists n, m.
  - exists 0%nat, 0%nat. by rewrite Emit_absent.
Qed.

(** ** C4: a one-shot handler across several [Emit]s *)

(** C4, refuted.  [quiet] and then [boom] are registered with [Once]; the
    caller recovers from the panic of the first [Emit] and emits again:
    [quiet], which is entered before [boom] panics, is entered by both
    [Emit]s.  And a handler registered with [On] as well as with [Once]
    is entered by every [Emit], all of which return. *)
Lemma Once_handler_entered_twice :
  filter isOneShot (trace (emitAll "x" [[]; []]) quietThenBoom)
  = [CallHandler OneShot quiet []; CallHandler OneShot boom [];
     CallHandler OneShot quiet []; CallHandler OneShot boom []]
  ∧ trace (range [[]; []] (λ p, Emit "x" p)) quietBoth
    = [CallHandler Durable quiet []; CallHandler OneShot quiet [];
       CallHandler Durable quiet []].
Proof. by vm_compute. Qed.

Lemma callsOf_entered p s payload l :
  callsOf p (map (entered s payload) l)
  = length (filter (λ x, Pointer x = p) l).
Proof.
  unfold callsOf. induction l as [|x l IH]; [done|]. simpl.
  rewrite !filter_cons. simpl.
  destruct (decide (Pointer x = p)) as [->|Hne].
  - rewrite decide_True by done. simpl. by rewrite IH.
  - rewrite decide_False by congruence. done.
Qed.

Lemma callsOf_app p l k : callsOf p (l ++ k) = (callsOf p l + callsOf p k)%nat.
Proof. unfold callsOf. by rewrite filter_app, length_app. Qed.

Lemma filter_pointer_none p (l : list handler) :
  Forall (λ x, Pointer x ≠ p) l → length (filter (λ x, Pointer x = p) l) = 0%nat.
Proof.
  induction 1 as [|x l Hx _ IH]; [done|]. by rewrite filter_cons, decide_False.
Qed.

(** [Emit]s of a name under which no handler has the pointer [p] add no
    call of [p] to the log. *)
Lemma emitAll_callsOf name p ps w :
  Forall (λ x, Pointer x ≠ p) (listeners (emitter w) name) →
  callsOf p (log (emitAll name ps w).2) = callsOf p (log w).
Proof.
  revert w. induction ps as [|payload ps IH]; intros w Hl; [done|].
  unfold emitAll. simpl. unfold bind at 1, recovered at 1. fold (emitAll name ps).
  rewrite IH.
  - unfold listeners in Hl.
    destruct (events (emitter w) !! name) as [r|] eqn:Hr; [|by rewrite Emit_absent].
    apply Forall_app in Hl as [Hon Honce].
    destruct (Emit_log name payload w r Hr) as (n & m & ->).
    rewrite !callsOf_app, !callsOf_entered.
    rewrite !filter_pointer_none by by apply Forall_take. lia.
  - rewrite Emit_emitter. destruct (dispatchOk _ _ _); [|done].
    rewrite listeners_split, onOf_clearOnce, onceOf_clearOnce, app_nil_r.
    rewrite listeners_split in Hl. by apply Forall_app in Hl as [? _].
Qed.

(** C4, amended.  Let [h] be registered with [Once(name, h)] while no
    handler with its pointer is under [name] yet.  When the handler calls
    of the next [Emit] of [name] all return, that [Emit] enters [h]
    exactly once, last, and empties the one-shot sequence, no [Emit] of
    [name] that follows (returning or panicking) enters it, and so over
    any number of [Emit]s it is entered exactly once in total.  When a
    handler call of that [Emit] panics, the [Emit] panics and the one-shot
    sequence is as it was, [h] still in it. *)
Theorem Once_handler_entered_once (e : EventEmitter) (name : string) (h : handler)
    (payload : list value) (ps : list (list value)) :
  Forall (λ x, Pointer x ≠ Pointer h) (listeners e name) →
  (dispatchOk (exec (Once name h) e) name payload = true →
     callsOf (Pointer h) (trace (Emit name payload) (exec (Once name h) e)) = 1%nat
     ∧ last (trace (Emit name payload) (exec (Once name h) e))
       = Some (CallHandler OneShot h (take (NumIn h) payload))
     ∧ onceOf (exec (Emit name payload) (exec (Once name h) e)) name = []
     ∧ callsOf (Pointer h)
         (trace (emitAll name ps) (exec (Emit name payload) (exec (Once name h) e)))
       = 0%nat
     ∧ callsOf (Pointer h) (trace (emitAll name (payload :: ps)) (exec (Once name h) e))
       = 1%nat)
  ∧ (dispatchOk (exec (Once name h) e) name payload = false →
     (∃ p, outcome (Emit name payload) (exec (Once name h) e) = Panics p)
     ∧ onceOf (exec (Emit name payload) (exec (Once name h) e)) name
       = onceOf e name ++ [h]).
Proof.
  intros Hfresh. unfold Once, outcome, exec, trace, run. rewrite addEvent_run. simpl.
  set (e1 := appended e name h true).
  assert (onceOf e1 name = onceOf e name ++ [h]) as Honce
    by apply (onceOf_appended e name h true).
  assert (onOf e1 name = onOf e name) as Hon by apply (onOf_appended e name h true).
  rewrite listeners_split in Hfresh. apply Forall_app in Hfresh as [Hfon Hfonce].
  split.
  - intros Hok.
    assert (Emit name payload (World e1 [])
            = (Return tt,
               World (clearOnce e1 name)
                     (map (entered Durable payload) (onOf e name)
                      ++ map (entered OneShot payload) (onceOf e name ++ [h])))) as Hfirst.
    { rewrite <- Hon, <- Honce. unfold dispatchOk, listeners in Hok.
      unfold onOf, onceOf. destruct (events e1 !! name) as [r|] eqn:Hr.
      - by rewrite (Emit_returns name payload (World e1 []) r Hr Hok).
      - rewrite Emit_absent by done. unfold clearOnce. by rewrite Hr. }
    assert (callsOf (Pointer h)
              (map (entered Durable payload) (onOf e name)
               ++ map (entered OneShot payload) (onceOf e name ++ [h])) = 1%nat) as Hone.
    { rewrite callsOf_app, !callsOf_entered, filter_app, length_app.
      rewrite !filter_pointer_none by done.
      by rewrite filter_cons, decide_True. }
    assert (Forall (λ x, Pointer x ≠ Pointer h) (listeners (clearOnce e1 name) name))
      as Hlater.
    { rewrite listeners_split, onOf_clearOnce, onceOf_clearOnce, app_nil_r. by rewrite Hon. }
    rewrite Hfirst. simpl.
    split; [exact Hone|]. split.
    { rewrite map_app, app_assoc. apply last_snoc. }
    split; [apply onceOf_clearOnce|]. split.
    + by rewrite emitAll_callsOf.
    + unfold emitAll. simpl. unfold bind at 1, recovered at 1. fold (emitAll name ps).
      rewrite Hfirst. simpl. by rewrite emitAll_callsOf.
  - intros Hbad.
    pose proof (Emit_exit name payload (World e1 [])) as Hexit.
    pose proof (Emit_emitter name payload (World e1 [])) as Hst.
    simpl in Hexit, Hst. rewrite Hbad in Hst. rewrite Hst. split; [|done].
    destruct (Emit name payload (World e1 [])) as [[[]|p] w']; simpl in *.
    + destruct Hexit as [Hexit _]. rewrite Hexit in Hbad by done. done.
    + by exists p.
Qed.

Lemma Once_handler_entered_once_witness :
  Forall (λ x, Pointer x ≠ Pointer single) (listeners onQuiet "x")
  ∧ dispatchOk (exec (Once "x" single) onQuiet) "x" [VInt 5] = true
  ∧ callsOf (Pointer single)
      (trace (emitAll "x" [[VInt 5]; []; [VInt 6]]) (exec (Once "x" single) onQuiet))
    = 1%nat
  ∧ Forall (λ x, Pointer x ≠ Pointer boom) (listeners onQuiet "x")
  ∧ dispatchOk (exec (Once "x" boom) onQuiet) "x" [] = false
  ∧ onceOf (exec (Emit "x" []) (exec (Once "x" boom) onQuiet)) "x"
    = onceOf onQuiet "x" ++ [boom].
Proof.
  assert (Forall (λ x, Pointer x ≠ Pointer single) (listeners onQuiet "x")) as H1.
  { repeat constructor. discriminate. }
  assert (Forall (λ x, Pointer x ≠ Pointer boom) (listeners onQuiet "x")) as H2.
  { repeat constructor. discriminate. }
  assert (dispatchOk (exec (Once "x" single) onQuiet) "x" [VInt 5] = true) as Hok
    by reflexivity.
  assert (dispatchOk (exec (Once "x" boom) onQuiet) "x" [] = false) as Hbad
    by reflexivity.
  destruct (Once_handler_entered_once onQuiet "x" single [VInt 5] [[]; [VInt 6]] H1)
    as [Hret _].
  destruct (Once_handler_entered_once onQuiet "x" boom [] [] H2) as [_ Hpanic].
  destruct (Hret Hok) as (_ & _ & _ & _ & Htotal).
  destruct (Hpanic Hbad) as [_ Hkept].
  exact (conj H1 (conj Hok (conj Htotal (conj H2 (conj Hbad Hkept))))).
Defined.

(** ** C5: [RemoveListener] *)

(** C5, refuted.  [quiet'] is a closure of the function literal of
    [quiet] and was never registered; [quiet] is registered under ["x"].
    [RemoveListener("x", quiet')] matches [quiet] by its code pointer and
    empties the durable sequence: the call is not a no-op. *)
Lemma RemoveListener_matches_other_closure :
  (quiet' ∉ listeners onQuiet "x")
  ∧ onOf onQuiet "x" = [quiet]
  ∧ onOf (exec (RemoveListener "x" quiet') onQuiet) "x" = []
  ∧ exec (RemoveListener "x" quiet') onQuiet ≠ onQuiet.
Proof.
  split.
  { change (listeners onQuiet "x") with [quiet]. intros Hin%list_elem_of_singleton.
    assert (raises quiet' [] = raises quiet []) as Hr by by rewrite Hin.
    discriminate Hr. }
  split; [reflexivity|]. split; [reflexivity|].
  intros Heq. assert (onOf (exec (RemoveListener "x" quiet') onQuiet) "x" = [quiet]) as Hon
    by by rewrite Heq.
  discriminate Hon.
Qed.

(** C5, amended.  [RemoveListener(name, h)] returns; it keeps, in both sequences of
    [name] and in order, exactly the entries whose pointer differs from
    the pointer of [h], so no entry with that pointer is left; other names
    are untouched; the match is on the pointer alone (two handlers with
    one pointer, such as two closures of one function literal, remove the
    same entries, whatever else distinguishes them); when no entry under
    [name] has the pointer of [h] the emitter is unchanged; and a second
    call changes nothing more. *)
Theorem RemoveListener_removes (e : EventEmitter) (name : string) (h : handler) :
  let e' := exec (RemoveListener name h) e in
  outcome (RemoveListener name h) e = Return tt
  ∧ onOf e' name = filter (λ x, Pointer x ≠ Pointer h) (onOf e name)
  ∧ onceOf e' name = filter (λ x, Pointer x ≠ Pointer h) (onceOf e name)
  ∧ Forall (λ x, Pointer x ≠ Pointer h) (listeners e' name)
  ∧ (∀ name', name ≠ name' → events e' !! name' = events e !! name')
  ∧ (∀ h', Pointer h' = Pointer h → exec (RemoveListener name h') e = e')
  ∧ (Forall (λ x, Pointer x ≠ Pointer h) (listeners e name) → e' = e)
  ∧ exec (RemoveListener name h) e' = e'.
Proof.
  unfold outcome, exec, run. simpl. rewrite !RemoveListener_run. simpl.
  split; [done|].
  split; [apply onOf_removed|].
  split; [apply onceOf_removed|].
  split.
  { rewrite listeners_split, onOf_removed, onceOf_removed.
    apply Forall_app. split; apply Forall_forall; intros x Hx;
      by apply list_elem_of_filter in Hx as [? _]. }
  split; [intros name' Hne; by apply events_removed_ne|].
  split.
  { intros h' Hp. rewrite RemoveListener_run. simpl. by apply removed_same_pointer. }
  split; [apply removed_unmatched|].
  apply removed_idemp.
Qed.

Lemma RemoveListener_removes_witness :
  Forall (λ x, Pointer x ≠ Pointer pair) (listeners onQuiet "x")
  ∧ exec (RemoveListener "x" pair) onQuiet = onQuiet
  ∧ Pointer quiet' = Pointer quiet
  ∧ exec (RemoveListener "x" quiet') onQuiet = exec (RemoveListener "x" quiet) onQuiet
  ∧ onOf (exec (RemoveListener "x" quiet) onQuiet) "x" = []
  ∧ "a" ≠ "b"
  ∧ events (exec (RemoveListener "a" quiet) twoNames) !! "b" = events twoNames !! "b".
Proof.
  assert (Forall (λ x, Pointer x ≠ Pointer pair) (listeners onQuiet "x")) as Hfresh.
  { repeat constructor. discriminate. }
  assert ("a" ≠ "b") as Hne by discriminate.
  split; [exact Hfresh|].
  destruct (RemoveListener_removes onQuiet "x" pair)
    as (_ & _ & _ & _ & _ & _ & Hsame & _).
  destruct (RemoveListener_removes onQuiet "x" quiet)
    as (_ & Hon & _ & _ & _ & Hptr & _ & _).
  destruct (RemoveListener_removes twoNames "a" quiet)
    as (_ & _ & _ & _ & Hother & _ & _ & _).
  exact (conj (Hsame Hfresh) (conj eq_refl (conj (Hptr quiet' eq_refl)
           (conj Hon (conj Hne (Hother "b" Hne)))))).
Defined.

(** ** C6: arity is not checked at registration *)

Lemma Emit_panics_over_arity e name h payload :
  h ∈ listeners e name → (length payload < NumIn h)%nat →
  ∃ p, outcome (Emit name payload) e = Panics p.
Proof.
  intros Hin Hlt.
  assert (returns h payload = false) as Hbad.
  { unfold returns, accepts. rewrite bool_decide_eq_false_2 by lia. done. }
  assert (dispatchOk e name payload = false) as Hno.
  { unfold dispatchOk. apply not_true_is_false. intros Hall.
    rewrite forallb_forall in Hall. apply list_elem_of_In in Hin.
    rewrite (Hall h Hin) in Hbad. done. }
  unfold outcome, run.
  pose proof (Emit_exit name payload (World e [])) as Hexit. simpl in Hexit.
  destruct (Emit name payload (World e [])) as [[[]|p] w'] eqn:E; simpl in *.
  - destruct Hexit as [Hexit _]. rewrite Hexit in Hno by done. done.
  - by exists p.
Qed.

(** C6.  A handler declaring more parameters than an [Emit] supplies:
    [On] and [Once] both return and store it at the end of their
    sequence, without looking at its arity; its call with that payload
    panics before the body is entered, on the slice expression when the
    arity exceeds the capacity of the argument slice and otherwise in
    [reflect] on the zero Value past the payload; and the [Emit] of that
    payload panics, after [On] as after [Once]. *)
Theorem arity_fails_at_dispatch (e : EventEmitter) (name : string) (h : handler)
    (payload : list value) :
  (length payload < NumIn h)%nat →
  outcome (On name h) e = Return tt
  ∧ onOf (exec (On name h) e) name = onOf e name ++ [h]
  ∧ outcome (Once name h) e = Return tt
  ∧ onceOf (exec (Once name h) e) name = onceOf e name ++ [h]
  ∧ (∀ s w, Call s h (payloadVOf payload) w = (Panics OutOfRange, w)
            ∨ Call s h (payloadVOf payload) w = (Panics ZeroValue, w))
  ∧ (∃ p, outcome (Emit name payload) (exec (On name h) e) = Panics p)
  ∧ (∃ p, outcome (Emit name payload) (exec (Once name h) e) = Panics p).
Proof.
  intros Hlt.
  assert (exec (On name h) e = appended e name h false) as HOn
    by (unfold On, exec, run; by rewrite addEvent_run).
  assert (exec (Once name h) e = appended e name h true) as HOnce
    by (unfold Once, exec, run; by rewrite addEvent_run).
  rewrite HOn, HOnce.
  split; [unfold On, outcome, run; by rewrite addEvent_run|].
  split; [apply (onOf_appended e name h false)|].
  split; [unfold Once, outcome, run; by rewrite addEvent_run|].
  split; [apply (onceOf_appended e name h true)|].
  split.
  { intros s w. unfold Call.
    pose proof (reslice_beyond payload (NumIn h) Hlt) as Hb.
    destruct (reslice (payloadVOf payload) (NumIn h)) as [args|]; [|by left].
    rewrite Hb. by right. }
  split; apply (Emit_panics_over_arity _ name h); try done.
  - rewrite listeners_split, onOf_appended. set_solver.
  - rewrite listeners_split, onceOf_appended. set_solver.
Qed.

Lemma arity_fails_at_dispatch_witness :
  (length [VInt 1] < NumIn pair)%nat
  ∧ outcome (On "x" pair) blank = Return tt
  ∧ onOf (exec (On "x" pair) blank) "x" = [pair]
  ∧ outcome (Once "x" pair) blank = Return tt
  ∧ onceOf (exec (Once "x" pair) blank) "x" = [pair]
  ∧ Call Durable pair (payloadVOf [VInt 1]) (World blank [])
    = (Panics OutOfRange, World blank [])
  ∧ (∃ p, outcome (Emit "x" [VInt 1]) (exec (On "x" pair) blank) = Panics p)
  ∧ (∃ p, outcome (Emit "x" [VInt 1]) (exec (Once "x" pair) blank) = Panics p)
  ∧ (length [VInt 1; VInt 2; VInt 3] < NumIn quad)%nat
  ∧ Call OneShot quad (payloadVOf [VInt 1; VInt 2; VInt 3]) (World blank [])
    = (Panics ZeroValue, World blank [])
  ∧ (∃ p, outcome (Emit "x" [VInt 1; VInt 2; VInt 3]) (exec (Once "x" quad) blank)
          = Panics p).
Proof.
  assert (length [VInt 1] < NumIn pair)%nat as Hlt by (vm_compute; lia).
  assert (length [VInt 1; VInt 2; VInt 3] < NumIn quad)%nat as Hlt' by (vm_compute; lia).
  destruct (arity_fails_at_dispatch blank "x" pair [VInt 1] Hlt)
    as (HOn & Hon & HOnce & Honce & _ & Hemit & Hemit').
  destruct (arity_fails_at_dispatch blank "x" quad [VInt 1; VInt 2; VInt 3] Hlt')
    as (_ & _ & _ & _ & _ & _ & Hquad).
  exact (conj Hlt (conj HOn (conj Hon (conj HOnce (conj Honce (conj eq_refl
           (conj Hemit (conj Hemit' (conj Hlt' (conj eq_refl Hquad)))))))))).
Defined.

(** ** C7: the hooks *)

(** C7.  Hooks registered by successive calls of [addEventHandler] (or
    [removeEventHandler]) are appended to their list in that order, so the
    lists are in registration order.  A subscription ([On] is
    [addEvent] with [once = false], [Once] with [once = true]) enters
    every add-hook with [(name, handler)] in that order, each while the
    emitter's map is still the one before the call, and only then appends
    the handler to its sequence; [RemoveListener] does the same with the
    remove-hooks before it filters the two sequences. *)
Theorem hooks_run_first (e : EventEmitter) (name : string) (h : handler) :
  (∀ ks, addEventHandlers (exec (range ks addEventHandler) e) = addEventHandlers e ++ ks)
  ∧ (∀ ks, removeEventHandlers (exec (range ks removeEventHandler) e)
           = removeEventHandlers e ++ ks)
  ∧ trace (On name h) e
    = map (λ mitm, CallHook AddHook mitm name h (events e)) (addEventHandlers e)
  ∧ onOf (exec (On name h) e) name = onOf e name ++ [h]
  ∧ trace (Once name h) e
    = map (λ mitm, CallHook AddHook mitm name h (events e)) (addEventHandlers e)
  ∧ onceOf (exec (Once name h) e) name = onceOf e name ++ [h]
  ∧ trace (RemoveListener name h) e
    = map (λ mitm, CallHook RemoveHook mitm name h (events e)) (removeEventHandlers e)
  ∧ exec (RemoveListener name h) e = removed e name h.
Proof.
  unfold On, Once, exec, trace, run.
  rewrite !addEvent_run, RemoveListener_run. simpl.
  split; [intros ks; by rewrite addEventHandler_range|].
  split; [intros ks; by rewrite removeEventHandler_range|].
  repeat split.
  - apply (onOf_appended e name h false).
  - apply (onceOf_appended e name h true).
Qed.

(** ** C8: [Emit] without listeners *)

(** C8.  When no handler is registered under [name] (the map has no entry
    for [name], or an entry whose two sequences are empty), [Emit(name,
    ...)] returns, enters no handler and leaves the emitter, hence its
    map and every [ListenerCount], as they were. *)
Theorem Emit_without_listeners (e : EventEmitter) (name : string) (payload : list value) :
  listeners e name = [] →
  outcome (Emit name payload) e = Return tt
  ∧ trace (Emit name payload) e = []
  ∧ exec (Emit name payload) e = e
  ∧ events (exec (Emit name payload) e) !! name = events e !! name
  ∧ ∀ name', ListenerCount (exec (Emit name payload) e) name' = ListenerCount e name'.
Proof.
  intros Hnone.
  assert (run (Emit name payload) e = (Return tt, World e [])) as Hrun.
  { unfold run. unfold listeners in Hnone.
    destruct (events e !! name) as [r|] eqn:Hr.
    - apply app_eq_nil in Hnone as [Hon Honce].
      rewrite (Emit_returns name payload (World e []) r); [|done|].
      + simpl. rewrite Hon, Honce. simpl.
        rewrite clearOnce_empty; [done|]. unfold onceOf. by rewrite Hr.
      + by rewrite Hon, Honce.
    - by apply Emit_absent. }
  unfold outcome, trace, exec. rewrite Hrun. done.
Qed.

Lemma Emit_without_listeners_witness :
  listeners drained "x" = []
  ∧ listeners onlyY "x" = []
  ∧ events drained !! "x" = Some (mkRegister [] [])
  ∧ exec (Emit "x" [VInt 1]) drained = drained
  ∧ events (exec (Emit "x" [VInt 1]) onlyY) !! "x" = None.
Proof.
  assert (listeners drained "x" = []) as H1 by reflexivity.
  assert (listeners onlyY "x" = []) as H2 by reflexivity.
  destruct (Emit_without_listeners drained "x" [VInt 1] H1) as (_ & _ & Hsame & _).
  destruct (Emit_without_listeners onlyY "x" [VInt 1] H2) as (_ & _ & _ & Hentry & _).
  exact (conj H1 (conj H2 (conj eq_refl (conj Hsame Hentry)))).
Defined.

(** ** C9: [ListenerCount] does not read its argument *)

(** C9.  For every emitter and every two names [a] and [b],
    [ListenerCount(a) = ListenerCount(b)]: the result is the sum, over
    every entry of the map, of the lengths of its durable and of its
    one-shot sequence. *)
Theorem ListenerCount_ignores_name (e : EventEmitter) (a b : string) :
  ListenerCount e a = ListenerCount e b
  ∧ ListenerCount e a
    = Z.of_nat (sum_list_with (λ kr : string * eventRegister,
                                 length (on kr.2) + length (once kr.2))%nat
                              (map_to_list (events e))).
Proof. split; [done|]. rewrite ListenerCount_countAll. apply countAll_sum. Qed.

(** ** C10: the pointer helpers *)

(** C10.  For every value [v], reading through the pointer that [String],
    [Bool], [Int] or [Float] returns yields [v] itself. *)
Theorem pointer_helpers_roundtrip (h : gmap positive Helpers.cell)
    (s : string) (b : bool) (z : Z) (f : spec_float) :
  Helpers.loadString (Helpers.String s h).1 (Helpers.String s h).2 = Some s
  ∧ Helpers.loadBool (Helpers.Bool b h).1 (Helpers.Bool b h).2 = Some b
  ∧ Helpers.loadInt (Helpers.Int z h).1 (Helpers.Int z h).2 = Some z
  ∧ Helpers.loadFloat (Helpers.Float f h).1 (Helpers.Float f h).2 = Some f.
Proof.
  unfold Helpers.loadString, Helpers.loadBool, Helpers.loadInt, Helpers.loadFloat,
    Helpers.String, Helpers.Bool, Helpers.Int, Helpers.Float.
  by rewrite !addressOf_lookup.
Qed.

(** * Further properties of the emitter *)

Lemma reach_le payload l : (reach payload l ≤ length l)%nat.
Proof.
  induction l as [|h l IH]; simpl; [lia|].
  destruct (returns h payload); [lia|]. destruct (accepts h payload); lia.
Qed.

Lemma reach_all payload l :
  forallb (λ h, returns h payload) l = true → reach payload l = length l.
Proof.
  induction l as [|h l IH]; simpl; [done|].
  intros [Hh Hl]%andb_prop. rewrite Hh. by rewrite IH.
Qed.

Lemma reach_app payload l k :
  reach payload (l ++ k)
  = if forallb (λ h, returns h payload) l
    then (length l + reach payload k)%nat else reach payload l.
Proof.
  induction l as [|h l IH]; simpl; [done|].
  destruct (returns h payload); simpl; [|done].
  rewrite IH. by destruct (forallb _ l).
Qed.

Lemma range_Call_reach s hs payload w :
  log (range hs (λ h, Call s h (payloadVOf payload)) w).2
  = log w ++ map (entered s payload) (take (reach payload hs) hs).
Proof.
  revert w. induction hs as [|h hs IH]; intros w; simpl.
  - by rewrite app_nil_r.
  - unfold bind at 1. destruct (returns h payload) eqn:Hh.
    + rewrite Call_returns by done. rewrite IH. simpl. by rewrite <- app_assoc.
    + unfold returns in Hh. destruct (accepts h payload) eqn:Ha; simpl in Hh.
      * rewrite Call_accepts by done. unfoldM. simpl.
        apply negb_false_iff in Hh. rewrite Hh. by destruct hs.
      * destruct (Call_rejects s h payload w Ha) as [p ->].
        simpl. by rewrite app_nil_r.
Qed.

(** X12.  The handlers an [Emit] enters, returning or panicking: the
    durable ones and then the one-shot ones, in registration order, up to
    the first whose call does not return; that one is entered too when
    its arguments pass [reflect]'s checks (its body is what panics), and
    no handler after it is. *)
Theorem Emit_trace_until_panic (e : EventEmitter) (name : string)
    (payload : list value) :
  trace (Emit name payload) e
  = take (reach payload (listeners e name)) (fullDispatch e name payload).
Proof.
  unfold trace, run, fullDispatch, listeners, onOf, onceOf.
  destruct (events e !! name) as [r|] eqn:Hr; [|by rewrite Emit_absent].
  rewrite reach_app.
  destruct (forallb (λ h, returns h payload) (on r)) eqn:Hon.
  - rewrite (Emit_present _ _ (World e []) _ Hr).
    rewrite (bind_Return _ _ _ _ _ (range_Call_returns _ _ _ _ Hon)).
    erewrite bind_Return; [|by apply register_Some].
    set (w1 := World e ([] ++ map (entered Durable payload) (on r))).
    pose proof (range_Call_reach OneShot (once r) payload w1) as Hlog.
    pose proof (range_Call_emitter OneShot (once r) payload w1) as He.
    rewrite take_app_add' by by rewrite length_map.
    rewrite <- firstn_map in Hlog.
    destruct (range (once r) _ w1) as [[[]|p] w'] eqn:E; simpl in *.
    + rewrite (bind_Return _ _ _ _ _ E).
      assert (events (emitter w') !! name = Some r) as Hr' by by rewrite He.
      by rewrite (setOnce_Some _ _ _ _ Hr').
    + by rewrite (bind_Panics _ _ _ _ _ E).
  - rewrite (Emit_present _ _ (World e []) _ Hr).
    pose proof (range_Call_reach Durable (on r) payload (World e [])) as Hlog.
    destruct (range_Call_fails Durable (on r) payload (World e []) Hon) as [p Hp].
    destruct (range (on r) _ (World e [])) as [[[]|p'] w'] eqn:E; simpl in *; [done|].
    rewrite (bind_Panics _ _ _ _ _ E). simpl. rewrite Hlog.
    rewrite take_app_le by (rewrite length_map; apply reach_le).
    by rewrite firstn_map.
Qed.

Lemma returns_app h payload extra :
  returns h payload = true →
  returns h (payload ++ extra) = true
  ∧ take (NumIn h) (payload ++ extra) = take (NumIn h) payload.
Proof.
  unfold returns, accepts. intros H.
  apply andb_prop in H as [H Hbody].
  apply andb_prop in H as [H Hassign].
  apply andb_prop in H as [Hlen Hvalid].
  apply bool_decide_eq_true in Hlen.
  rewrite take_app_le by done.
  rewrite Hvalid, Hassign, Hbody.
  rewrite bool_decide_eq_true_2; [done|]. rewrite length_app. lia.
Qed.

Lemma returns_all_app payload extra l :
  forallb (λ h, returns h payload) l = true →
  forallb (λ h, returns h (payload ++ extra)) l = true
  ∧ map (entered Durable (payload ++ extra)) l = map (entered Durable payload) l
  ∧ map (entered OneShot (payload ++ extra)) l = map (entered OneShot payload) l.
Proof.
  induction l as [|h l IH]; simpl; [done|].
  intros [Hh Hl]%andb_prop. destruct (IH Hl) as (-> & -> & ->).
  destruct (returns_app h payload extra Hh) as [-> Htake].
  unfold entered. by rewrite Htake.
Qed.

(** X16.  Arguments past what the handlers declare are ignored: when the
    handler calls of [Emit(name, args...)] all return, emitting [args]
    followed by any further arguments returns too, enters the same
    handlers with the same arguments and leaves the same emitter. *)
Theorem Emit_extra_arguments (e : EventEmitter) (name : string)
    (payload extra : list value) :
  dispatchOk e name payload = true →
  run (Emit name (payload ++ extra)) e = run (Emit name payload) e.
Proof.
  unfold dispatchOk, listeners, run.
  destruct (events e !! name) as [r|] eqn:Hr; [|by rewrite !Emit_absent].
  intros Hok.
  destruct (returns_all_app payload extra _ Hok) as (Hok' & _ & _).
  rewrite (Emit_returns _ _ (World e []) r Hr Hok), (Emit_returns _ _ (World e []) r Hr Hok').
  rewrite forallb_app in Hok. apply andb_prop in Hok as [Hon Honce].
  destruct (returns_all_app payload extra _ Hon) as (_ & -> & _).
  by destruct (returns_all_app payload extra _ Honce) as (_ & _ & ->).
Qed.

Lemma Emit_extra_arguments_witness :
  dispatchOk mixed "x" [VInt 1; VInt 2] = true
  ∧ run (Emit "x" ([VInt 1; VInt 2] ++ [VNil; VString "tail"])) mixed
    = run (Emit "x" [VInt 1; VInt 2]) mixed.
Proof.
  split; [reflexivity|].
  exact (Emit_extra_arguments mixed "x" [VInt 1; VInt 2] [VNil; VString "tail"] eq_refl).
Defined.

Lemma events_clearOnce_ne e name name' :
  name ≠ name' → events (clearOnce e name) !! name' = events e !! name'.
Proof.
  intros Hne. unfold clearOnce. destruct (events e !! name); [|done].
  simpl. by rewrite lookup_insert_ne.
Qed.

Lemma dom_insert_present (m : gmap string eventRegister) i r :
  is_Some (m !! i) → dom (<[i := r]> m) = dom m.
Proof.
  intros Hi%elem_of_dom. rewrite dom_insert_L.
  by apply subseteq_union_1_L, singleton_subseteq_l.
Qed.

Lemma dom_clearOnce e name : dom (events (clearOnce e name)) = dom (events e).
Proof.
  unfold clearOnce. destruct (events e !! name) as [r|] eqn:Hr; [|done].
  simpl. by apply dom_insert_present.
Qed.

Lemma hooks_clearOnce e name :
  addEventHandlers (clearOnce e name) = addEventHandlers e
  ∧ removeEventHandlers (clearOnce e name) = removeEventHandlers e.
Proof. unfold clearOnce. by destruct (events e !! name). Qed.

(** X5.  An [Emit] of [name], returning or panicking, changes nothing but
    the one-shot sequence of [name]: the durable sequence of [name], the
    registers of all other names and both hook lists are as before. *)
Theorem Emit_changes_only_once (e : EventEmitter) (name : string)
    (payload : list value) :
  let e' := exec (Emit name payload) e in
  onOf e' name = onOf e name
  ∧ (∀ name', name ≠ name' → events e' !! name' = events e !! name')
  ∧ addEventHandlers e' = addEventHandlers e
  ∧ removeEventHandlers e' = removeEventHandlers e.
Proof.
  unfold exec, run. simpl. rewrite Emit_emitter. simpl.
  destruct (dispatchOk e name payload); [|done].
  split; [apply onOf_clearOnce|].
  split; [intros name' Hne; by apply events_clearOnce_ne|].
  apply hooks_clearOnce.
Qed.

Lemma Emit_changes_only_once_witness :
  "x" ≠ "y"
  ∧ events (exec (Emit "x" [VInt 1; VInt 2]) (exec (Once "y" quiet) mixed)) !! "y"
    = events (exec (Once "y" quiet) mixed) !! "y"
  ∧ onOf (exec (Emit "x" [VInt 1; VInt 2]) (exec (Once "y" quiet) mixed)) "x"
    = [single; pair].
Proof.
  assert ("x" ≠ "y") as Hne by discriminate.
  destruct (Emit_changes_only_once (exec (Once "y" quiet) mixed) "x" [VInt 1; VInt 2])
    as (Hon & Hother & _).
  exact (conj Hne (conj (Hother "y" Hne) Hon)).
Defined.

Lemma countAll_clearOnce e name :
  countAll (events (clearOnce e name))
  = countAll (events e) - Z.of_nat (length (onceOf e name)).
Proof.
  unfold clearOnce, onceOf. destruct (events e !! name) as [r|] eqn:Hr; simpl; [|lia].
  rewrite countAll_insert, (countAll_delete _ _ _ Hr). unfold weight. simpl. lia.
Qed.

(** X6.  An [Emit] that returns takes the one-shot handlers of its name
    out of [ListenerCount]; an [Emit] that panics leaves the count as it
    was. *)
Theorem ListenerCount_after_Emit (e : EventEmitter) (name name' : string)
    (payload : list value) :
  ListenerCount (exec (Emit name payload) e) name'
  = if dispatchOk e name payload
    then ListenerCount e name' - Z.of_nat (length (onceOf e name))
    else ListenerCount e name'.
Proof.
  unfold exec, run. rewrite Emit_emitter. simpl.
  destruct (dispatchOk e name payload); [|done].
  rewrite !ListenerCount_countAll. apply countAll_clearOnce.
Qed.

Lemma listeners_clearOnce e name : listeners (clearOnce e name) name = onOf e name.
Proof.
  rewrite listeners_split, onOf_clearOnce, onceOf_clearOnce. apply app_nil_r.
Qed.

Lemma dispatchOk_clearOnce e name payload :
  dispatchOk e name payload = true → dispatchOk (clearOnce e name) name payload = true.
Proof.
  unfold dispatchOk. rewrite listeners_clearOnce, listeners_split, forallb_app.
  by intros [? _]%andb_prop.
Qed.

(** Once the one-shot sequence is empty, a run of returning [Emit]s is a
    run over the durable handlers alone, and leaves the emitter alone. *)
Lemma range_Emit_durable name ps w :
  onceOf (emitter w) name = [] →
  Forall (λ p, dispatchOk (emitter w) name p = true) ps →
  range ps (λ p, Emit name p) w
  = (Return tt,
     World (emitter w)
           (log w ++ flat_map (λ p, map (entered Durable p) (onOf (emitter w) name)) ps)).
Proof.
  revert w. induction ps as [|p ps IH]; intros w Hnone Hok; simpl.
  - rewrite app_nil_r. by destruct w.
  - apply Forall_cons in Hok as [Hp Hps].
    assert (Emit name p w
            = (Return tt,
               World (emitter w)
                     (log w ++ map (entered Durable p) (onOf (emitter w) name)))) as Hstep.
    { unfold dispatchOk, listeners in Hp. unfold onOf. unfold onceOf in Hnone.
      destruct (events (emitter w) !! name) as [r|] eqn:Hr.
      - rewrite (Emit_returns _ _ _ _ Hr Hp). rewrite Hnone. simpl.
        rewrite app_nil_r. rewrite clearOnce_empty; [done|].
        unfold onceOf. by rewrite Hr.
      - rewrite Emit_absent by done. simpl. rewrite app_nil_r. by destruct w. }
    rewrite (bind_Return _ _ _ _ _ Hstep). rewrite IH by done. simpl.
    by rewrite <- app_assoc.
Qed.

(** X7.  Durable handlers fire on every [Emit], one-shot handlers on the
    first only: when the handler calls of a run of [Emit]s of [name] all
    return (those of every handler on the first payload, those of the
    durable handlers on each later one), the run returns, its first
    [Emit] enters the durable and then the one-shot handlers with the
    leading arguments of the first payload, and each later [Emit] enters
    exactly the durable handlers, in registration order, with the leading
    arguments of its own payload. *)
Theorem durable_handlers_fire_on_every_Emit (e : EventEmitter) (name : string)
    (payload : list value) (ps : list (list value)) :
  dispatchOk e name payload = true →
  Forall (λ p, Forall (λ h, returns h p = true) (onOf e name)) ps →
  run (range (payload :: ps) (λ p, Emit name p)) e
  = (Return tt,
     World (clearOnce e name)
           (fullDispatch e name payload
            ++ flat_map (λ p, map (λ h, CallHandler Durable h (take (NumIn h) p))
                                  (onOf e name)) ps)).
Proof.
  intros Hp Hps. unfold run. simpl.
  assert (Emit name payload (World e [])
          = (Return tt, World (clearOnce e name) (fullDispatch e name payload))) as Hfirst.
  { unfold fullDispatch, onOf, onceOf. unfold dispatchOk, listeners in Hp.
    destruct (events e !! name) as [r|] eqn:Hr.
    - rewrite (Emit_returns name payload (World e []) r Hr Hp). simpl.
      unfold clearOnce. by rewrite Hr.
    - rewrite Emit_absent by done. unfold clearOnce. by rewrite Hr. }
  rewrite (bind_Return _ _ _ _ _ Hfirst).
  rewrite range_Emit_durable; simpl.
  - by rewrite onOf_clearOnce.
  - apply onceOf_clearOnce.
  - eapply Forall_impl; [exact Hps|]. intros p Hall. simpl in Hall.
    unfold dispatchOk. rewrite listeners_clearOnce.
    apply forallb_forall. intros h Hh%list_elem_of_In.
    rewrite Forall_forall in Hall. by apply Hall.
Qed.

Lemma durable_handlers_fire_on_every_Emit_witness :
  dispatchOk pairOnce "x" [VInt 1; VInt 2] = true
  ∧ Forall (λ p, Forall (λ h, returns h p = true) (onOf pairOnce "x")) [[VInt 3]; [VInt 4]]
  ∧ dispatchOk pairOnce "x" [VInt 3] = false
  ∧ trace (range [[VInt 1; VInt 2]; [VInt 3]; [VInt 4]] (λ p, Emit "x" p)) pairOnce
    = [CallHandler Durable single [VInt 1]; CallHandler OneShot pair [VInt 1; VInt 2];
       CallHandler Durable single [VInt 3]; CallHandler Durable single [VInt 4]].
Proof.
  assert (dispatchOk pairOnce "x" [VInt 1; VInt 2] = true) as Hfirst by reflexivity.
  assert (Forall (λ p, Forall (λ h, returns h p = true) (onOf pairOnce "x"))
                 [[VInt 3]; [VInt 4]]) as Hlater
    by (repeat constructor).
  split; [exact Hfirst|]. split; [exact Hlater|]. split; [reflexivity|].
  exact (f_equal (λ r, log r.2)
           (durable_handlers_fire_on_every_Emit pairOnce "x" [VInt 1; VInt 2]
              [[VInt 3]; [VInt 4]] Hfirst Hlater)).
Defined.

Lemma Forall_take_map {A B} (P : B → Prop) (f : A → B) (n : nat) (l : list A) :
  Forall (λ x, P (f x)) l → Forall P (map f (take n l)).
Proof.
  intros H. apply Forall_map. by apply Forall_take.
Qed.

Lemma emitAll_pointer name p ps w :
  Forall (λ x, Pointer x ≠ p) (listeners (emitter w) name) →
  Forall (λ c, calleePointer c ≠ Some p) (log w) →
  Forall (λ c, calleePointer c ≠ Some p) (log (emitAll name ps w).2).
Proof.
  revert w. induction ps as [|payload ps IH]; intros w Hl Hlog; [done|].
  unfold emitAll. simpl. unfold bind at 1, recovered at 1. fold (emitAll name ps).
  apply IH.
  - rewrite Emit_emitter. destruct (dispatchOk _ _ _); [|done].
    rewrite listeners_clearOnce. rewrite listeners_split in Hl.
    by apply Forall_app in Hl as [? _].
  - unfold listeners in Hl.
    destruct (events (emitter w) !! name) as [r|] eqn:Hr; [|by rewrite Emit_absent].
    apply Forall_app in Hl as [Hon Honce].
    destruct (Emit_log name payload w r Hr) as (n & m & ->).
    repeat apply Forall_app_2; [done| |].
    + apply Forall_take_map. eapply Forall_impl; [exact Hon|].
      intros x Hx; simpl. congruence.
    + apply Forall_take_map. eapply Forall_impl; [exact Honce|].
      intros x Hx; simpl. congruence.
Qed.

(** X8.  After [RemoveListener(name, h)], no [Emit] of [name], however
    many follow and whether they return or panic, enters a handler that
    has the pointer of [h]. *)
Theorem removed_handler_never_entered (e : EventEmitter) (name : string)
    (h : handler) (ps : list (list value)) :
  Forall (λ c, calleePointer c ≠ Some (Pointer h))
         (trace (emitAll name ps) (exec (RemoveListener name h) e)).
Proof.
  unfold trace, exec, run. rewrite RemoveListener_run. simpl.
  apply emitAll_pointer; [|done]. simpl.
  rewrite listeners_split, onOf_removed, onceOf_removed.
  apply Forall_app. split; apply Forall_forall; intros x Hx;
    by apply list_elem_of_filter in Hx as [? _].
Qed.

Lemma exec_addEvent e name h once_ :
  exec (addEvent name h once_) e = appended e name h once_.
Proof. unfold exec, run. by rewrite addEvent_run. Qed.

Lemma exec_RemoveListener e name h :
  exec (RemoveListener name h) e = removed e name h.
Proof. unfold exec, run. by rewrite RemoveListener_run. Qed.

(** X9.  Registers are created by subscriptions only and are never
    deleted: [On]/[Once] add the key [name] to the map when it is not
    there, [RemoveListener] and [Emit] leave the set of keys as it is, so
    a name keeps its register once every handler under it is gone. *)
Theorem registers_persist (e : EventEmitter) (name : string) (h : handler)
    (once_ : bool) (payload : list value) :
  dom (events (exec (addEvent name h once_) e)) = {[name]} ∪ dom (events e)
  ∧ dom (events (exec (RemoveListener name h) e)) = dom (events e)
  ∧ dom (events (exec (Emit name payload) e)) = dom (events e).
Proof.
  unfold exec, run. rewrite addEvent_run, RemoveListener_run, Emit_emitter. simpl.
  split; [apply dom_insert_L|]. split.
  - unfold removed. destruct (events e !! name) as [r|] eqn:Hr; [|done].
    simpl. by apply dom_insert_present.
  - destruct (dispatchOk e name payload); [|done]. apply dom_clearOnce.
Qed.

Lemma emitter_ext (e1 e2 : EventEmitter) :
  (∀ k, events e1 !! k = events e2 !! k) →
  addEventHandlers e1 = addEventHandlers e2 →
  removeEventHandlers e1 = removeEventHandlers e2 →
  e1 = e2.
Proof.
  destruct e1, e2. simpl. intros Hev%map_eq -> ->. by rewrite Hev.
Qed.

(** The register [RemoveListener] leaves under a key. *)
Lemma events_removed e name h k :
  events (removed e name h) !! k
  = if decide (name = k)
    then (λ r, mkRegister (filter (λ x, Pointer x ≠ Pointer h) (once r))
                          (filter (λ x, Pointer x ≠ Pointer h) (on r)))
         <$> events e !! k
    else events e !! k.
Proof.
  unfold removed. destruct (decide (name = k)) as [<-|Hne].
  - destruct (events e !! name) as [r|] eqn:Hr; simpl.
    + by rewrite lookup_insert_eq.
    + by rewrite Hr.
  - destruct (events e !! name); [|done]. simpl. by rewrite lookup_insert_ne.
Qed.

Lemma hooks_removed e name h :
  addEventHandlers (removed e name h) = addEventHandlers e
  ∧ removeEventHandlers (removed e name h) = removeEventHandlers e.
Proof. unfold removed. by destruct (events e !! name). Qed.

Lemma filter_pointer_comm (p q : N) (l : list handler) :
  filter (λ x, Pointer x ≠ p) (filter (λ x, Pointer x ≠ q) l)
  = filter (λ x, Pointer x ≠ q) (filter (λ x, Pointer x ≠ p) l).
Proof.
  induction l as [|x l IH]; [done|]. rewrite !filter_cons.
  destruct (decide (Pointer x ≠ q)), (decide (Pointer x ≠ p));
    rewrite ?filter_cons, ?decide_True, ?decide_False by done; by rewrite ?IH.
Qed.

(** X10.  Removals commute: two [RemoveListener] calls, on the same name
    or on two names, leave the same emitter in either order. *)
Theorem RemoveListener_commute (e : EventEmitter) (n1 n2 : string) (h1 h2 : handler) :
  exec (RemoveListener n1 h1 ;;; RemoveListener n2 h2) e
  = exec (RemoveListener n2 h2 ;;; RemoveListener n1 h1) e.
Proof.
  unfold exec, run.
  rewrite (bind_Return _ _ _ _ _ (RemoveListener_run n1 h1 _)).
  rewrite (bind_Return _ _ _ _ _ (RemoveListener_run n2 h2 _)).
  rewrite !RemoveListener_run. simpl.
  apply emitter_ext.
  - intros k. rewrite !events_removed.
    destruct (decide (n1 = k)) as [E1|H1]; destruct (decide (n2 = k)) as [E2|H2];
      try done.
    destruct (events e !! k) as [r|]; [|done]. simpl.
    by rewrite (filter_pointer_comm (Pointer h2) (Pointer h1) (once r)),
               (filter_pointer_comm (Pointer h2) (Pointer h1) (on r)).
  - destruct (hooks_removed (removed e n1 h1) n2 h2) as [-> _].
    destruct (hooks_removed (removed e n2 h2) n1 h1) as [-> _].
    destruct (hooks_removed e n1 h1) as [-> _].
    by destruct (hooks_removed e n2 h2) as [-> _].
  - destruct (hooks_removed (removed e n1 h1) n2 h2) as [_ ->].
    destruct (hooks_removed (removed e n2 h2) n1 h1) as [_ ->].
    destruct (hooks_removed e n1 h1) as [_ ->].
    by destruct (hooks_removed e n2 h2) as [_ ->].
Qed.

Lemma countOf_countAll m : countOf m = countAll m.
Proof. done. Qed.

(** X11.  A hook that calls [ListenerCount] while it runs is returned the
    count from before the change it announces: an add-hook sees one less
    than the count after [On]/[Once], a remove-hook sees the count after
    [RemoveListener] plus the entries that call takes out. *)
Theorem hooks_see_the_count_before (e : EventEmitter) (name name' : string)
    (h : handler) (once_ : bool) :
  Forall (λ c, seenCount c
               = Some (ListenerCount (exec (addEvent name h once_) e) name' - 1))
         (trace (addEvent name h once_) e)
  ∧ Forall (λ c, seenCount c
                 = Some (ListenerCount (exec (RemoveListener name h) e) name'
                         + Z.of_nat (matched e name h)))
           (trace (RemoveListener name h) e).
Proof.
  unfold exec, trace, run. rewrite addEvent_run, RemoveListener_run. simpl.
  rewrite ListenerCount_appended, ListenerCount_removed.
  split; apply Forall_map, Forall_forall; intros mitm _; simpl;
    rewrite countOf_countAll, <- (ListenerCount_countAll e name'); f_equal; lia.
Qed.

(** X1.  A subscription under [name] touches one sequence of one
    register: the registers of all other names, the other sequence of
    [name] and both hook lists are as before. *)
Theorem subscription_changes_one_sequence (e : EventEmitter) (name : string)
    (h : handler) :
  (∀ name', name ≠ name' →
     events (exec (On name h) e) !! name' = events e !! name'
     ∧ events (exec (Once name h) e) !! name' = events e !! name')
  ∧ onceOf (exec (On name h) e) name = onceOf e name
  ∧ onOf (exec (Once name h) e) name = onOf e name
  ∧ addEventHandlers (exec (On name h) e) = addEventHandlers e
  ∧ removeEventHandlers (exec (On name h) e) = removeEventHandlers e
  ∧ addEventHandlers (exec (Once name h) e) = addEventHandlers e
  ∧ removeEventHandlers (exec (Once name h) e) = removeEventHandlers e.
Proof.
  unfold On, Once. rewrite !exec_addEvent.
  split.
  { intros name' Hne. by rewrite !events_appended_ne. }
  split; [apply (onceOf_appended e name h false)|].
  split; [apply (onOf_appended e name h true)|]. done.
Qed.

Lemma subscription_changes_one_sequence_witness :
  "x" ≠ "a"
  ∧ events (exec (On "x" pair) twoNames) !! "a" = events twoNames !! "a"
  ∧ events (exec (Once "x" pair) twoNames) !! "a" = events twoNames !! "a".
Proof.
  assert ("x" ≠ "a") as Hne by discriminate.
  destruct (subscription_changes_one_sequence twoNames "x" pair) as (Hother & _).
  exact (conj Hne (Hother "a" Hne)).
Defined.

(** X2.  Every [On] and every [Once] adds exactly one to [ListenerCount],
    under whatever name the handler is registered and whatever name the
    count is asked for; a handler registered twice counts twice. *)
Theorem ListenerCount_after_subscription (e : EventEmitter) (name name' : string)
    (h : handler) :
  ListenerCount (exec (On name h) e) name' = ListenerCount e name' + 1
  ∧ ListenerCount (exec (Once name h) e) name' = ListenerCount e name' + 1
  ∧ ListenerCount (exec (On name h ;;; On name h) e) name' = ListenerCount e name' + 2.
Proof.
  unfold On, Once, exec, run.
  rewrite (bind_Return _ _ _ _ _ (addEvent_run name h false _)).
  rewrite !addEvent_run. simpl. rewrite !ListenerCount_appended. lia.
Qed.

(** X3.  [RemoveListener(name, h)] lowers [ListenerCount] by the number
    of entries under [name], durable and one-shot, that have the pointer
    of [h]: every registration of the handler goes at once, the count
    never rises and never drops below what is registered elsewhere. *)
Theorem ListenerCount_after_removal (e : EventEmitter) (name name' : string)
    (h : handler) :
  ListenerCount (exec (RemoveListener name h) e) name'
  = ListenerCount e name' - Z.of_nat (matched e name h)
  ∧ (matched e name h ≤ length (listeners e name))%nat
  ∧ matched (exec (RemoveListener name h) e) name h = 0%nat.
Proof.
  unfold exec, run. rewrite RemoveListener_run. simpl.
  split; [apply ListenerCount_removed|]. split.
  - unfold matched. apply length_filter.
  - unfold matched. rewrite listeners_split, onOf_removed, onceOf_removed.
    rewrite filter_app, length_app.
    assert (∀ l : list handler,
              filter (λ x, Pointer x = Pointer h)
                     (filter (λ x, Pointer x ≠ Pointer h) l) = []) as Hnil.
    { intros l. induction l as [|x l IH]; [done|]. rewrite filter_cons.
      destruct (decide (Pointer x ≠ Pointer h)); [|done].
      rewrite filter_cons, decide_False by done. done. }
    by rewrite !Hnil.
Qed.

Lemma countAll_nonneg m : (0 ≤ countAll m)%Z.
Proof. rewrite countAll_sum. lia. Qed.

Lemma weight_zero r : weight r = 0 ↔ on r ++ once r = [].
Proof.
  unfold weight. destruct r as [o d]. simpl. split.
  - intros H. destruct d, o; simpl in *; try done; lia.
  - by intros [-> ->]%app_eq_nil.
Qed.

Lemma countAll_zero m :
  countAll m = 0 ↔ ∀ k r, m !! k = Some r → weight r = 0.
Proof.
  split.
  - intros Hz k r Hk. rewrite (countAll_delete _ _ _ Hk) in Hz.
    pose proof (countAll_nonneg (delete k m)).
    assert (0 ≤ weight r)%Z by (unfold weight; lia). lia.
  - intros Hall. induction m as [|k r m Hk IH] using map_ind.
    + apply countAll_empty.
    + rewrite countAll_insert_None by done.
      rewrite (Hall k r) by apply lookup_insert_eq.
      rewrite IH; [done|]. intros k' r' Hk'. apply (Hall k').
      rewrite lookup_insert_ne; [done|]. intros <-. by rewrite Hk in Hk'.
Qed.

(** X4.  [ListenerCount] is never negative, and it is zero exactly when
    no handler, durable or one-shot, is registered under any name. *)
Theorem ListenerCount_zero (e : EventEmitter) (name : string) :
  (0 ≤ ListenerCount e name)%Z
  ∧ (ListenerCount e name = 0 ↔ ∀ name', listeners e name' = []).
Proof.
  rewrite ListenerCount_countAll. split; [apply countAll_nonneg|].
  rewrite countAll_zero. unfold listeners. split.
  - intros Hall name'. destruct (events e !! name') as [r|] eqn:Hr; [|done].
    by apply weight_zero, (Hall name').
  - intros Hall k r Hk. apply weight_zero. specialize (Hall k). by rewrite Hk in Hall.
Qed.

Lemma ListenerCount_zero_witness :
  (∀ name', listeners drained name' = []) ∧ ListenerCount drained "x" = 0.
Proof.
  assert (∀ name', listeners drained name' = []) as Hnone.
  { intros name'. unfold listeners.
    destruct (decide (name' = "x")) as [->|Hne]; [reflexivity|].
    assert (events drained !! name' = None) as ->; [|done].
    change (events drained) with (<["x" := mkRegister [] []]> (∅ : gmap string eventRegister)).
    rewrite lookup_insert_ne by done. apply lookup_empty. }
  split; [exact Hnone|].
  destruct (ListenerCount_zero drained "x") as [_ [_ Hzero]].
  exact (Hzero Hnone).
Defined.

(** X15.  Subscribing a handler whose pointer is not yet under [name] and
    removing it again gives back both sequences of [name] and every
    [ListenerCount]; the emitter as a whole is the one before when [name]
    had a register, and otherwise keeps the empty register the
    subscription created. *)
Theorem subscribe_then_remove (e : EventEmitter) (name : string) (h : handler)
    (once_ : bool) :
  Forall (λ x, Pointer x ≠ Pointer h) (listeners e name) →
  let e' := exec (addEvent name h once_ ;;; RemoveListener name h) e in
  onOf e' name = onOf e name
  ∧ onceOf e' name = onceOf e name
  ∧ (∀ name', ListenerCount e' name' = ListenerCount e name')
  ∧ (is_Some (events e !! name) → e' = e)
  ∧ (events e !! name = None → events e' !! name = Some (mkRegister [] [])).
Proof.
  intros Hfresh. unfold exec, run.
  rewrite (bind_Return _ _ _ _ _ (addEvent_run name h once_ _)).
  rewrite RemoveListener_run. simpl.
  rewrite listeners_split in Hfresh. apply Forall_app in Hfresh as [Hon Honce].
  assert (∀ l, Forall (λ x, Pointer x ≠ Pointer h) l →
               filter (λ x, Pointer x ≠ Pointer h) (l ++ [h]) = l) as Hdrop.
  { intros l Hl. rewrite filter_app, filter_same_pointer by done.
    rewrite filter_cons, decide_False by (intros Hx; by apply Hx). apply app_nil_r. }
  assert (onOf (removed (appended e name h once_) name h) name = onOf e name) as H1.
  { rewrite onOf_removed, onOf_appended. destruct once_; [|by apply Hdrop].
    by apply filter_same_pointer. }
  assert (onceOf (removed (appended e name h once_) name h) name = onceOf e name) as H2.
  { rewrite onceOf_removed, onceOf_appended. destruct once_; [by apply Hdrop|].
    by apply filter_same_pointer. }
  split; [done|]. split; [done|]. split.
  { intros name'. rewrite ListenerCount_removed, ListenerCount_appended.
    unfold matched. rewrite listeners_split, onOf_appended, onceOf_appended.
    assert (∀ l, Forall (λ x, Pointer x ≠ Pointer h) l →
                 length (filter (λ x, Pointer x = Pointer h) l) = 0%nat) as Hzero.
    { intros l Hl. induction Hl as [|x l Hx _ IH]; [done|].
      rewrite filter_cons, decide_False by done. done. }
    destruct once_; rewrite !filter_app, !length_app, ?(Hzero _ Hon), ?(Hzero _ Honce);
      rewrite filter_cons, decide_True by done; simpl; lia. }
  split.
  - intros [r Hr]. apply emitter_ext.
    + intros k. destruct (decide (name = k)) as [<-|Hne].
      * unfold onOf in H1. unfold onceOf in H2. rewrite Hr in H1, H2.
        destruct (events (removed (appended e name h once_) name h) !! name)
          as [[o d]|] eqn:Hr'.
        -- simpl in *. subst. rewrite Hr. by destruct r.
        -- rewrite events_removed, decide_True in Hr' by done.
           unfold appended in Hr'. simpl in Hr'. by rewrite lookup_insert_eq in Hr'.
      * by rewrite events_removed_ne, events_appended_ne.
    + by destruct (hooks_removed (appended e name h once_) name h) as [-> _].
    + by destruct (hooks_removed (appended e name h once_) name h) as [_ ->].
  - intros Hnone. rewrite events_removed, decide_True by done.
    unfold appended, registerOf. simpl. rewrite lookup_insert_eq, Hnone. simpl.
    destruct once_; simpl; by rewrite filter_cons, decide_False by (intros Hx; by apply Hx).
Qed.

Lemma subscribe_then_remove_witness :
  Forall (λ x, Pointer x ≠ Pointer text) (listeners mixed "x")
  ∧ is_Some (events mixed !! "x")
  ∧ exec (addEvent "x" text true ;;; RemoveListener "x" text) mixed = mixed
  ∧ Forall (λ x, Pointer x ≠ Pointer text) (listeners blank "x")
  ∧ events blank !! "x" = None
  ∧ events (exec (addEvent "x" text false ;;; RemoveListener "x" text) blank) !! "x"
    = Some (mkRegister [] []).
Proof.
  assert (Forall (λ x, Pointer x ≠ Pointer text) (listeners mixed "x")) as H1.
  { repeat constructor; discriminate. }
  assert (is_Some (events mixed !! "x")) as H2 by (eexists; reflexivity).
  assert (Forall (λ x, Pointer x ≠ Pointer text) (listeners blank "x")) as H3
    by constructor.
  assert (events blank !! "x" = None) as H4 by reflexivity.
  destruct (subscribe_then_remove mixed "x" text true H1) as (_ & _ & _ & Hsame & _).
  destruct (subscribe_then_remove blank "x" text false H3) as (_ & _ & _ & _ & Hempty).
  exact (conj H1 (conj H2 (conj (Hsame H2) (conj H3 (conj H4 (Hempty H4)))))).
Defined.

(** * The address of the driver *)

(** X13.  The address [getDriverURL] returns is the fixed directory of
    version 1.4.0 followed by the driver name it returns with it; the
    name is empty, and the address that of the bare directory, exactly
    when the platform is none of windows, darwin and linux; and no other
    platform is given the address of one of these three. *)
Theorem getDriverURL_by_platform (GOOS : string) :
  (getDriverURL GOOS).1
  = String.append
      "https://storage.googleapis.com/mxschmitt-public-files/playwright-driver-1.4.0/"
      (getDriverURL GOOS).2
  ∧ ((getDriverURL GOOS).2 = "" ↔ GOOS ≠ "windows" ∧ GOOS ≠ "darwin" ∧ GOOS ≠ "linux")
  ∧ (∀ GOOS', (getDriverURL GOOS).2 ≠ "" →
       getDriverURL GOOS' = getDriverURL GOOS → GOOS' = GOOS).
Proof.
  unfold getDriverURL. split; [reflexivity|]. split.
  - repeat case_decide; simpl; split; try done; intros (? & ? & ?); done.
  - intros GOOS'. simpl. repeat case_decide; subst; simpl; try done.
Qed.

Lemma getDriverURL_by_platform_witness :
  (getDriverURL "freebsd").2 = ""
  ∧ (getDriverURL "freebsd").1
    = "https://storage.googleapis.com/mxschmitt-public-files/playwright-driver-1.4.0/"
  ∧ (getDriverURL "darwin").2 ≠ ""
  ∧ (getDriverURL "darwin").1
    = "https://storage.googleapis.com/mxschmitt-public-files/playwright-driver-1.4.0/playwright-driver-macos"
  ∧ "darwin" = "darwin".
Proof.
  assert ("freebsd" ≠ "windows" ∧ "freebsd" ≠ "darwin" ∧ "freebsd" ≠ "linux") as Hnone
    by (repeat split; discriminate).
  assert ((getDriverURL "darwin").2 ≠ "") as Hmacname by (vm_compute; discriminate).
  destruct (getDriverURL_by_platform "freebsd") as (Hurl & [_ Hname] & _).
  destruct (getDriverURL_by_platform "darwin") as (Hmac & _ & Hinj).
  exact (conj (Hname Hnone) (conj Hurl (conj Hmacname (conj Hmac
           (Hinj "darwin" Hmacname eq_refl))))).
Defined.

(** * More on the pointer helpers *)

(** X14.  Every call of a helper returns a pointer to a variable of its
    own: the pointer of a second call differs from that of the first,
    even for equal values, the first variable still holds its value after
    the second call, and no variable allocated before is changed. *)
Theorem pointer_helpers_do_not_alias (h : gmap positive Helpers.cell)
    (s1 s2 : string) (z : Z) (f : spec_float) :
  let a := Helpers.String s1 h in
  let b := Helpers.String s2 a.2 in
  let c := Helpers.Int z b.2 in
  let d := Helpers.Float f c.2 in
  a.1 ≠ b.1 ∧ a.1 ≠ c.1 ∧ a.1 ≠ d.1 ∧ b.1 ≠ c.1 ∧ b.1 ≠ d.1 ∧ c.1 ≠ d.1
  ∧ Helpers.loadString a.1 d.2 = Some s1
  ∧ Helpers.loadString b.1 d.2 = Some s2
  ∧ Helpers.loadInt c.1 d.2 = Some z
  ∧ Helpers.loadFloat d.1 d.2 = Some f
  ∧ (∀ q, is_Some (h !! q) → d.2 !! q = h !! q).
Proof.
  intros a b c d.
  assert (a.2 !! a.1 = Some (Helpers.CString s1)) as Ha by apply addressOf_lookup.
  assert (b.2 !! b.1 = Some (Helpers.CString s2)) as Hb by apply addressOf_lookup.
  assert (c.2 !! c.1 = Some (Helpers.CInt z)) as Hc by apply addressOf_lookup.
  assert (d.2 !! d.1 = Some (Helpers.CFloat f)) as Hd by apply addressOf_lookup.
  assert (h !! a.1 = None ∧ ∀ q, q ≠ a.1 → a.2 !! q = h !! q) as [Fa Ka]
    by apply addressOf_fresh.
  assert (a.2 !! b.1 = None ∧ ∀ q, q ≠ b.1 → b.2 !! q = a.2 !! q) as [Fb Kb]
    by apply addressOf_fresh.
  assert (b.2 !! c.1 = None ∧ ∀ q, q ≠ c.1 → c.2 !! q = b.2 !! q) as [Fc Kc]
    by apply addressOf_fresh.
  assert (c.2 !! d.1 = None ∧ ∀ q, q ≠ d.1 → d.2 !! q = c.2 !! q) as [Fd Kd]
    by apply addressOf_fresh.
  clearbody a b c d.
  assert (a.1 ≠ b.1) as Hab by (intros E; rewrite <- E, Ha in Fb; done).
  assert (b.1 ≠ c.1) as Hbc by (intros E; rewrite <- E, Hb in Fc; done).
  assert (c.1 ≠ d.1) as Hcd by (intros E; rewrite <- E, Hc in Fd; done).
  assert (b.2 !! a.1 = Some (Helpers.CString s1)) as Hba by (rewrite Kb; done).
  assert (a.1 ≠ c.1) as Hac by (intros E; rewrite <- E, Hba in Fc; done).
  assert (c.2 !! a.1 = Some (Helpers.CString s1)) as Hca by (rewrite Kc; done).
  assert (c.2 !! b.1 = Some (Helpers.CString s2)) as Hcb by (rewrite Kc; done).
  assert (a.1 ≠ d.1) as Had by (intros E; rewrite <- E, Hca in Fd; done).
  assert (b.1 ≠ d.1) as Hbd by (intros E; rewrite <- E, Hcb in Fd; done).
  unfold Helpers.loadString, Helpers.loadInt, Helpers.loadFloat.
  rewrite (Kd a.1), (Kd b.1), (Kd c.1), Hca, Hcb, Hc, Hd by done.
  repeat (split; [done|]).
  intros q [x Hq].
  assert (q ≠ a.1) as Hqa by (intros ->; rewrite Fa in Hq; done).
  assert (a.2 !! q = Some x) as Hq1 by (rewrite Ka; done).
  assert (q ≠ b.1) as Hqb by (intros ->; rewrite Fb in Hq1; done).
  assert (b.2 !! q = Some x) as Hq2 by (rewrite Kb; done).
  assert (q ≠ c.1) as Hqc by (intros ->; rewrite Fc in Hq2; done).
  assert (c.2 !! q = Some x) as Hq3 by (rewrite Kc; done).
  assert (q ≠ d.1) as Hqd by (intros ->; rewrite Fd in Hq3; done).
  rewrite Kd by done. by rewrite Hq3, Hq.
Qed.

Lemma pointer_helpers_do_not_alias_witness :
  is_Some ((Helpers.Bool true ∅).2 !! (Helpers.Bool true ∅).1)
  ∧ (Helpers.Float (S754_zero false) (Helpers.Int 7 (Helpers.String "b"
       (Helpers.String "a" (Helpers.Bool true ∅).2).2).2).2).2
    !! (Helpers.Bool true ∅).1
    = (Helpers.Bool true ∅).2 !! (Helpers.Bool true ∅).1.
Proof.
  assert (is_Some ((Helpers.Bool true ∅).2 !! (Helpers.Bool true ∅).1)) as Hsome
    by (eexists; apply addressOf_lookup).
  split; [exact Hsome|].
  destruct (pointer_helpers_do_not_alias (Helpers.Bool true ∅).2 "a" "b" 7 (S754_zero false))
    as (_ & _ & _ & _ & _ & _ & _ & _ & _ & _ & Hkeep).
  exact (Hkeep _ Hsome).
Defined.

(** * When [Emit] panics *)

Lemma returns_spelled h payload :
  returns h payload = true
  ↔ (NumIn h ≤ length payload)%nat
    ∧ Forall (λ v, v ≠ VNil) (take (NumIn h) payload)
    ∧ assignableAll (take (NumIn h) payload) (params h) = true
    ∧ raises h (take (NumIn h) payload) = false.
Proof.
  unfold returns, accepts.
  rewrite !andb_true_iff, bool_decide_eq_true, negb_true_iff, forallb_forall.
  rewrite Forall_forall.
  assert ((∀ v, In v (take (NumIn h) payload) → IsValid v = true)
          ↔ (∀ v, v ∈ take (NumIn h) payload → v ≠ VNil)) as ->; [|tauto].
  split; intros H v Hv.
  - apply list_elem_of_In, H in Hv. by destruct v.
  - apply list_elem_of_In, H in Hv. by destruct v.
Qed.

(** X17.  [Emit(name, args...)] returns exactly when each handler under
    [name], durable or one-shot, declares at most [len(args)] parameters,
    none of the leading arguments it is to receive is nil, each of them
    is assignable to its parameter, and its body does not panic on them;
    in every other case [Emit] panics. *)
Theorem Emit_returns_exactly_when (e : EventEmitter) (name : string)
    (payload : list value) :
  (outcome (Emit name payload) e = Return tt
   ↔ Forall (λ h, (NumIn h ≤ length payload)%nat
                  ∧ Forall (λ v, v ≠ VNil) (take (NumIn h) payload)
                  ∧ assignableAll (take (NumIn h) payload) (params h) = true
                  ∧ raises h (take (NumIn h) payload) = false)
            (listeners e name))
  ∧ (outcome (Emit name payload) e = Return tt
     ∨ ∃ p, outcome (Emit name payload) e = Panics p).
Proof.
  unfold outcome, run. split.
  - rewrite (Emit_exit name payload (World e [])). simpl. unfold dispatchOk.
    rewrite forallb_forall, Forall_forall. split; intros H h Hh.
    + apply returns_spelled, H. by apply list_elem_of_In.
    + apply returns_spelled, H. by apply list_elem_of_In.
  - destruct (Emit name payload (World e [])) as [[[]|p] w']; simpl; eauto.
Qed.

Lemma Emit_returns_exactly_when_witness :
  outcome (Emit "x" [VInt 1; VInt 2]) mixed = Return tt
  ∧ Forall (λ h, (NumIn h ≤ length [VInt 1; VInt 2])%nat
                 ∧ Forall (λ v, v ≠ VNil) (take (NumIn h) [VInt 1; VInt 2])
                 ∧ assignableAll (take (NumIn h) [VInt 1; VInt 2]) (params h) = true
                 ∧ raises h (take (NumIn h) [VInt 1; VInt 2]) = false)
           (listeners mixed "x").
Proof.
  assert (outcome (Emit "x" [VInt 1; VInt 2]) mixed = Return tt) as Hret by reflexivity.
  split; [exact Hret|].
  destruct (Emit_returns_exactly_when mixed "x" [VInt 1; VInt 2]) as [[Hall _] _].
  exact (Hall Hret).
Defined.
